(** * cluster-manager: the terminal session proxy and the job store

    A shallow embedding of [handleResize] (the control-frame decoder) and of
    [runTerminalSession] (the orchestrator and its two stream goroutines) of
    terminal.go, of [intToStr] of main.go, and of the job store of cron.go
    with its handlers.

    - Go [string]/[[]byte] values are [list byte]; indexing [str[j]] and
      slicing [str[i:i+6]] are checked against the length and panic out of
      range, as the Go runtime does.
    - [uint16] values are [Z] with the wrap-around modulo 2^16 written out.
    - A Go panic is an explicit outcome ([Panic]); loops whose trip count is
      not fixed by their header run on fuel, with a separate [OutOfFuel]
      outcome that is proved unreachable. *)

From Stdlib Require Import ZArith List Bool Lia.
From Stdlib.Strings Require Import Byte String.
Import Corelib.Init.Datatypes.   (* [length] is the one of lists *)
Import ListNotations.
Local Open Scope Z_scope.

(** ** Outcomes of Go code *)

Inductive panic : Type :=
| IndexOutOfRange        (* runtime error: index out of range *)
| SliceOutOfRange        (* runtime error: slice bounds out of range *)
| CloseOfClosedChannel.  (* panic: close of closed channel *)

Inductive result (A : Type) : Type :=
| Ok (a : A)
| Panic (p : panic)
| OutOfFuel.

Arguments Ok {A} a.
Arguments Panic {A} p.
Arguments OutOfFuel {A}.

Definition bind {A B : Type} (m : result A) (k : A -> result B) : result B :=
  match m with
  | Ok a => k a
  | Panic p => Panic p
  | OutOfFuel => OutOfFuel
  end.

Notation "x <- m ;; k" := (bind m (fun x => k))
  (at level 61, m at next level, right associativity).
Notation "' pat <- m ;; k" := (bind m (fun x => match x with pat => k end))
  (at level 61, pat pattern, m at next level, right associativity).

(** ** Bytes, strings and 16-bit integers *)

Definition code (c : byte) : Z := Z.of_N (Byte.to_N c).

Definition uint8 (x : Z) : Z := x mod 256.
Definition uint16 (x : Z) : Z := x mod 65536.

Definition ch_space : byte := x20.   (* ' ' *)
Definition ch_colon : byte := x3a.   (* ':' *)
Definition ch_zero  : byte := x30.   (* '0' *)
Definition ch_nine  : byte := x39.   (* '9' *)
Definition ch_brace : byte := x7b.   (* '{' *)
Definition ch_quote : byte := x22.   (* the double quote *)

(** The two key literals of the decoder, quotes included (6 bytes each). *)
Definition key_cols : list byte := [x22; x63; x6f; x6c; x73; x22].
Definition key_rows : list byte := [x22; x72; x6f; x77; x73; x22].

Definition bytes_eqb (a b : list byte) : bool :=
  if list_eq_dec Byte.byte_eq_dec a b then true else false.

(** [str[j]] *)
Definition index (str : list byte) (j : nat) : result byte :=
  match nth_error str j with
  | Some c => Ok c
  | None => Panic IndexOutOfRange
  end.

(** [str[lo:hi]] *)
Definition substr (str : list byte) (lo hi : nat) : result (list byte) :=
  if (lo <=? hi)%nat && (hi <=? length str)%nat
  then Ok (firstn (hi - lo) (skipn lo str))
  else Panic SliceOutOfRange.

(** Frames are written below as Rocq strings in which the apostrophe stands
    for the double-quote byte 0x22. *)
Definition frame_byte (c : byte) : byte :=
  if Byte.eqb c x27 then ch_quote else c.

Definition frame (s : String.string) : list byte :=
  map frame_byte (String.list_byte_of_string s).

(** ** The pseudo-terminal handle *)

Record Winsize : Type := mkWinsize { Rows : Z; Cols : Z }.

Record File : Type := mkFile { size : Winsize; closed : bool }.

(** [pty.Setsize(ptmx, &ws)]; the error it may return is dropped by every
    caller in terminal.go. *)
Definition Setsize (ptmx : File) (ws : Winsize) : File :=
  mkFile ws (closed ptmx).

(** ** handleResize (terminal.go, lines 101-145) *)

(** The loop condition [j < len(str) && str[j] == ' ' || str[j] == ':'].
    Go parses it as [(j < len(str) && str[j] == ' ') || str[j] == ':']. *)
Definition sep_cond (str : list byte) (j : nat) : result bool :=
  l <- (if (j <? length str)%nat
        then c <- index str j ;; Ok (Byte.eqb c ch_space)
        else Ok false) ;;
  if l then Ok true
  else c <- index str j ;; Ok (Byte.eqb c ch_colon).

(** [for <sep_cond> { j++ }] *)
Fixpoint skip_sep (fuel : nat) (str : list byte) (j : nat) : result nat :=
  b <- sep_cond str j ;;
  if b then
    match fuel with
    | O => OutOfFuel
    | S fuel' => skip_sep fuel' str (S j)
    end
  else Ok j.

(** The loop condition [j < len(str) && str[j] >= '0' && str[j] <= '9']. *)
Definition digit_cond (str : list byte) (j : nat) : result bool :=
  if (j <? length str)%nat then
    c <- index str j ;;
    if code ch_zero <=? code c then
      c' <- index str j ;; Ok (code c' <=? code ch_nine)
    else Ok false
  else Ok false.

(** [for <digit_cond> { num = num*10 + uint16(str[j]-'0'); j++ }] *)
Fixpoint scan_num (fuel : nat) (str : list byte) (j : nat) (num : Z)
  : result Z :=
  b <- digit_cond str j ;;
  if b then
    c <- index str j ;;
    let num' := uint16 (num * 10 + uint16 (uint8 (code c - code ch_zero))) in
    match fuel with
    | O => OutOfFuel
    | S fuel' => scan_num fuel' str (S j) num'
    end
  else Ok num.

(** The number read for a key matched at [i]: [j := i + 7], the separator
    loop, then the digit loop from [num := uint16(0)]. *)
Definition field_num (str : list byte) (i : nat) : result Z :=
  j <- skip_sep (length str) str (i + 7) ;;
  scan_num (length str) str j 0.

(** One [if str[i:i+6] == key { ... if num > 0 { cur = num } }] block. *)
Definition parse_key (key : list byte) (str : list byte) (i : nat) (cur : Z)
  : result Z :=
  s <- substr str i (i + 6) ;;
  if bytes_eqb s key then
    num <- field_num str i ;;
    Ok (if num >? 0 then num else cur)
  else Ok cur.

(** The body of the outer loop at index [i], on the locals [(cols, rows)]. *)
Definition scan_body (str : list byte) (i : nat) (g : Z * Z) : result (Z * Z) :=
  cols <- parse_key key_cols str i (fst g) ;;
  rows <- parse_key key_rows str i (snd g) ;;
  Ok (cols, rows).

(** [for i := 0; i < len(str)-5; i++ { body }], with [n] iterations left. *)
Fixpoint scan_loop (n : nat) (str : list byte) (i : nat) (g : Z * Z)
  : result (Z * Z) :=
  match n with
  | O => Ok g
  | S n' => g' <- scan_body str i g ;; scan_loop n' str (S i) g'
  end.

(** The locals [(cols, rows)] when [pty.Setsize] is reached. They start at
    the literals 80 and 24 on every call. Under the guard [len(str) > 10]
    the bound [len(str)-5] is positive, so it is the same in [nat]. *)
Definition decode (data : list byte) : result (Z * Z) :=
  let str := data in
  if (10 <? length str)%nat
  then scan_loop (length str - 5) str 0 (80, 24)
  else Ok (80, 24).

Definition handleResize (ptmx : File) (data : list byte) : result File :=
  '(cols, rows) <- decode data ;;
  Ok (Setsize ptmx (mkWinsize rows cols)).

(** ** runTerminalSession (terminal.go, lines 14-99)

    Three threads of control run the session: the caller's goroutine (the
    orchestrator, [Main]) and the two goroutines it starts, pty-to-websocket
    ([D2T]) and websocket-to-pty ([T2D]). They are interleaved statement by
    statement; what the outside world answers to a blocking call (the result
    of a read, a write, [pty.Start] or [cmd.Wait]) comes with the step. *)

Inductive thread : Type := Main | D2T | T2D.

Inductive read_result : Type :=
| ReadOk (data : list byte)     (* n = len(data), err == nil *)
| ReadErr (eof : bool).         (* err != nil; eof: err == io.EOF *)

Inductive response : Type :=
| RNone                                (* the statement asks nothing *)
| RStart (err : option (list byte))    (* pty.Start: nil, or err.Error() *)
| RWait (failed : bool)                (* cmd.Wait returned; failed: err != nil *)
| RRead (r : read_result)
| RWrite (ok : bool).

Inductive log_site : Type :=
| LogStartFailed | LogPtyRead | LogWsWrite | LogWsRead | LogPtyWrite
| LogCmdError.

Inductive event : Type :=
| EvLog (site : log_site)
| EvPtyStart
| EvSetsize (ws : Winsize)
| EvPtyRead
| EvPtyWrite (data : list byte)
| EvPtyClose
| EvWsRead (data : list byte)
| EvWsWrite (data : list byte)
| EvWsClose
| EvCloseDone                 (* a close(done) that went through *)
| EvInterrupt.                (* cmd.Process.Signal(os.Interrupt) *)

Inductive main_pc : Type :=
| M_Start            (* line 16: pty.Start(cmd) *)
| M_Wait             (* line 91: cmd.Wait() *)
| M_CloseDone        (* line 96: close(done) *)
| M_WsClose          (* line 97: ws.Close() *)
| M_WgWait           (* line 98: wg.Wait() *)
| M_Deferred         (* line 23, run on return: ptmx.Close() *)
| M_Returned
| M_Panicked (p : panic).   (* left by a panic, deferred calls done *)

Inductive d2t_pc : Type :=
| D_NotStarted
| D_Select                      (* line 40: select on done *)
| D_Read                        (* line 44: ptmx.Read(buf) *)
| D_Write (data : list byte)    (* line 52: ws.Write(buf[:n]) *)
| D_Exited.

Inductive t2d_pc : Type :=
| T_NotStarted
| T_Read                        (* line 67: ws.Read(buf) *)
| T_CloseDone                   (* line 72: close(done) *)
| T_Signal                      (* line 73: cmd.Process.Signal *)
| T_Resize (data : list byte)   (* line 79: handleResize(ptmx, buf[:n]) *)
| T_Write (data : list byte)    (* line 82: ptmx.Write(buf[:n]) *)
| T_Exited
| T_Panicked (p : panic).       (* left by a panic, deferred wg.Done() done *)

Record state : Type := mkState {
  main : main_pc;
  d2t : d2t_pc;
  t2d : t2d_pc;
  done_closed : bool;        (* the channel done *)
  ws_closed : bool;
  ptmx : option File;        (* None until pty.Start succeeds *)
  wg : nat;                  (* the sync.WaitGroup counter *)
  crashed : option panic;    (* a goroutine panicked: the runtime is ending
                                the program *)
  trace : list event         (* oldest first *)
}.

Definition init : state :=
  mkState M_Start D_NotStarted T_NotStarted false false None 0%nat None [].

Definition set_main (pc : main_pc) (s : state) : state :=
  mkState pc (d2t s) (t2d s) (done_closed s) (ws_closed s) (ptmx s) (wg s)
          (crashed s) (trace s).
Definition set_d2t (pc : d2t_pc) (s : state) : state :=
  mkState (main s) pc (t2d s) (done_closed s) (ws_closed s) (ptmx s) (wg s)
          (crashed s) (trace s).
Definition set_t2d (pc : t2d_pc) (s : state) : state :=
  mkState (main s) (d2t s) pc (done_closed s) (ws_closed s) (ptmx s) (wg s)
          (crashed s) (trace s).
Definition set_done_closed (s : state) : state :=
  mkState (main s) (d2t s) (t2d s) true (ws_closed s) (ptmx s) (wg s)
          (crashed s) (trace s).
Definition set_ws_closed (s : state) : state :=
  mkState (main s) (d2t s) (t2d s) (done_closed s) true (ptmx s) (wg s)
          (crashed s) (trace s).
Definition set_ptmx (p : option File) (s : state) : state :=
  mkState (main s) (d2t s) (t2d s) (done_closed s) (ws_closed s) p (wg s)
          (crashed s) (trace s).
Definition set_wg (n : nat) (s : state) : state :=
  mkState (main s) (d2t s) (t2d s) (done_closed s) (ws_closed s) (ptmx s) n
          (crashed s) (trace s).
Definition set_crashed (p : panic) (s : state) : state :=
  mkState (main s) (d2t s) (t2d s) (done_closed s) (ws_closed s) (ptmx s)
          (wg s) (Some p) (trace s).
Definition emit (es : list event) (s : state) : state :=
  mkState (main s) (d2t s) (t2d s) (done_closed s) (ws_closed s) (ptmx s)
          (wg s) (crashed s) (trace s ++ es).

(** Whether the terminal handle has been released by [ptmx.Close()]. *)
Definition ptmx_closed (s : state) : bool :=
  match ptmx s with
  | Some f => closed f
  | None => false
  end.

(** [ptmx.Close()] *)
Definition close_ptmx (s : state) : state :=
  emit [EvPtyClose]
    (set_ptmx (option_map (fun f => mkFile (size f) true) (ptmx s)) s).

(** The line written to the websocket when [pty.Start] fails:
    ["Failed to start terminal: " + err.Error() + "\r\n"]. *)
Definition start_diagnostic (err : list byte) : list byte :=
  String.list_byte_of_string "Failed to start terminal: "%string ++ err ++ [x0d; x0a].

(** Both goroutines read into [buf := make([]byte, 4096)]. *)
Definition buf_len : nat := 4096.

(** A read answers with at most [len(buf)] bytes. Whether its handle has
    been closed does not restrict the answer: a read that is under way when
    the handle is closed may still deliver data, and the position of a
    goroutine at a read does not tell whether the call is under way. *)
Definition read_allowed (r : read_result) : bool :=
  match r with
  | ReadOk data => (length data <=? buf_len)%nat
  | ReadErr _ => true
  end.

(** A write cannot succeed on a closed handle. *)
Definition write_allowed (handle_closed : bool) (ok : bool) : bool :=
  negb (handle_closed && ok).

(** [buf[0] == '{'] *)
Definition is_control (data : list byte) : bool :=
  match data with
  | c :: _ => Byte.eqb c ch_brace
  | [] => false
  end.

(** The goroutine returns: its deferred [wg.Done()] runs. *)
Definition d2t_exit (s : state) : state :=
  set_wg (pred (wg s)) (set_d2t D_Exited s).
Definition t2d_exit (s : state) : state :=
  set_wg (pred (wg s)) (set_t2d T_Exited s).

(** The goroutine panics: it unwinds through its deferred [wg.Done()] (line
    64), nobody recovers, and the runtime ends the program. Until the
    runtime has done so the other goroutines keep moving. *)
Definition t2d_panic (p : panic) (s : state) : state :=
  set_crashed p (set_wg (pred (wg s)) (set_t2d (T_Panicked p) s)).

(** The orchestrator, lines 16-32 and 90-98 with the deferred call of line 23.
    Up to [cmd.Wait] it runs alone or touches nothing shared, so the start
    of the session is one step. A panic in it unwinds [runTerminalSession]:
    the deferred [ptmx.Close()] runs and the panic passes to the caller; the
    two goroutines are not stopped by that. *)
Definition main_step (s : state) (r : response) : option state :=
  match main s, r with
  | M_Start, RStart (Some err) =>
      Some (set_main M_Returned
             (set_ws_closed
               (emit [EvLog LogStartFailed;
                      EvWsWrite (start_diagnostic err);
                      EvWsClose] s)))
  | M_Start, RStart None =>
      let ws := mkWinsize 24 80 in
      Some (set_main M_Wait
             (set_t2d T_Read
               (set_d2t D_Select
                 (set_wg 2%nat
                   (set_ptmx (Some (Setsize (mkFile (mkWinsize 0 0) false) ws))
                     (emit [EvPtyStart; EvSetsize ws] s))))))
  | M_Wait, RWait failed =>
      Some (set_main M_CloseDone
             (emit (if failed then [EvLog LogCmdError] else []) s))
  | M_CloseDone, RNone =>
      if done_closed s
      then Some (set_main (M_Panicked CloseOfClosedChannel) (close_ptmx s))
      else Some (set_main M_WsClose (emit [EvCloseDone] (set_done_closed s)))
  | M_WsClose, RNone =>
      Some (set_main M_WgWait (emit [EvWsClose] (set_ws_closed s)))
  | M_WgWait, RNone =>
      match wg s with
      | O => Some (set_main M_Deferred s)
      | S _ => None
      end
  | M_Deferred, RNone => Some (set_main M_Returned (close_ptmx s))
  | _, _ => None
  end.

(** The goroutine of lines 36-59. *)
Definition d2t_step (s : state) (r : response) : option state :=
  match d2t s, r with
  | D_Select, RNone =>
      if done_closed s then Some (d2t_exit s) else Some (set_d2t D_Read s)
  | D_Read, RRead rr =>
      if read_allowed rr then
        match rr with
        | ReadErr eof =>
            Some (d2t_exit
                   (emit (EvPtyRead :: if eof then [] else [EvLog LogPtyRead]) s))
        | ReadOk [] => Some (set_d2t D_Select (emit [EvPtyRead] s))
        | ReadOk data => Some (set_d2t (D_Write data) (emit [EvPtyRead] s))
        end
      else None
  | D_Write data, RWrite ok =>
      if write_allowed (ws_closed s) ok then
        if ok
        then Some (set_d2t D_Select (emit [EvWsWrite data] s))
        else Some (d2t_exit (emit [EvWsWrite data; EvLog LogWsWrite] s))
      else None
  | _, _ => None
  end.

(** The goroutine of lines 63-88. A panic in it ([close] of the closed
    [done], an index out of range in [handleResize]) is [t2d_panic]. *)
Definition t2d_step (s : state) (r : response) : option state :=
  match t2d s, r with
  | T_Read, RRead rr =>
      if read_allowed rr then
        match rr with
        | ReadErr eof =>
            Some (set_t2d T_CloseDone
                   (emit (if eof then [] else [EvLog LogWsRead]) s))
        | ReadOk [] => Some (emit [EvWsRead []] s)
        | ReadOk data =>
            Some (set_t2d (if is_control data then T_Resize data
                           else T_Write data)
                   (emit [EvWsRead data] s))
        end
      else None
  | T_CloseDone, RNone =>
      if done_closed s
      then Some (t2d_panic CloseOfClosedChannel s)
      else Some (set_t2d T_Signal (emit [EvCloseDone] (set_done_closed s)))
  | T_Signal, RNone => Some (t2d_exit (emit [EvInterrupt] s))
  | T_Resize data, RNone =>
      match ptmx s with
      | Some f =>
          match handleResize f data with
          | Ok f' =>
              Some (set_t2d T_Read
                     (emit [EvSetsize (size f')] (set_ptmx (Some f') s)))
          | Panic p => Some (t2d_panic p s)
          | OutOfFuel => None
          end
      | None => None
      end
  | T_Write data, RWrite ok =>
      if write_allowed (ptmx_closed s) ok then
        if ok
        then Some (set_t2d T_Read (emit [EvPtyWrite data] s))
        else Some (t2d_exit (emit [EvPtyWrite data; EvLog LogPtyWrite] s))
      else None
  | _, _ => None
  end.

(** One move of one thread. A panic of the goroutine does not stop the
    others at once: they move on while the runtime brings the program down,
    so a schedule may go on after it. *)
Definition step (s : state) (t : thread) (r : response) : option state :=
  match t with
  | Main => main_step s r
  | D2T => d2t_step s r
  | T2D => t2d_step s r
  end.

(** A schedule is the order in which the threads move, each move with the
    answer it gets; [run] is [None] when a move is not possible. *)
Fixpoint run (sched : list (thread * response)) (s : state) : option state :=
  match sched with
  | [] => Some s
  | (t, r) :: sched' =>
      match step s t r with
      | Some s' => run sched' s'
      | None => None
      end
  end.

(** [runTerminalSession(ws, cmd)] under a schedule: where the session is
    after the moves of [sched], counted from the call. *)
Definition runTerminalSession (sched : list (thread * response))
  : option state :=
  run sched init.

(** *** Observations on a trace *)

Definition pty_writes (tr : list event) : list (list byte) :=
  flat_map (fun e => match e with EvPtyWrite d => [d] | _ => [] end) tr.

Definition ws_reads (tr : list event) : list (list byte) :=
  flat_map (fun e => match e with EvWsRead d => [d] | _ => [] end) tr.

Definition count_event (f : event -> bool) (tr : list event) : nat :=
  length (filter f tr).

Definition is_close_done (e : event) : bool :=
  match e with EvCloseDone => true | _ => false end.
Definition is_interrupt (e : event) : bool :=
  match e with EvInterrupt => true | _ => false end.
Definition is_pty_close (e : event) : bool :=
  match e with EvPtyClose => true | _ => false end.
Definition is_pty_use (e : event) : bool :=
  match e with
  | EvPtyRead | EvPtyWrite _ | EvSetsize _ => true
  | _ => false
  end.

(** Some read, write or resize of the terminal handle comes after its
    [ptmx.Close()]. *)
Fixpoint use_after_release (tr : list event) : bool :=
  match tr with
  | [] => false
  | e :: tr' =>
      (is_pty_close e && existsb is_pty_use tr') || use_after_release tr'
  end.

(** The chunks of the websocket that the loop of lines 76-86 hands to
    [ptmx.Write]: those with [n > 0] that do not start with the brace. *)
Definition forwarded (data : list byte) : bool :=
  match data with
  | [] => false
  | _ => negb (is_control data)
  end.

(** The chunk read by [T2D] that it has still to write. *)
Definition t2d_pending (s : state) : list (list byte) :=
  match t2d s with
  | T_Write data => [data]
  | _ => []
  end.

(** ** Vocabulary for the statements about the decoder *)

(** The indices the outer loop of [handleResize] visits. *)
Definition positions (str : list byte) : list nat :=
  if (10 <? length str)%nat then seq 0 (length str - 5) else [].

(** [str[i:i+6] == key] *)
Definition key_at (key str : list byte) (i : nat) : bool :=
  match substr str i (i + 6) with
  | Ok s => bytes_eqb s key
  | _ => false
  end.

Definition not_positive (r : result Z) : bool :=
  match r with
  | Ok num => negb (num >? 0)
  | _ => false
  end.

(** The frame gives no positive number for [key]: the key is absent, or the
    number read at each place it matches is not positive. *)
Definition axis_unset (key str : list byte) : bool :=
  forallb (fun i => negb (key_at key str i) || not_positive (field_num str i))
          (positions str).

(** Neither key literal is matched anywhere (so for every frame of at most 10
    bytes, which is not scanned). *)
Definition no_key (str : list byte) : bool :=
  forallb (fun i => negb (key_at key_cols str i || key_at key_rows str i))
          (positions str).

Definition is_sep (c : byte) : bool :=
  Byte.eqb c ch_space || Byte.eqb c ch_colon.

(** A key is matched at [i] and only spaces and colons, or nothing at all,
    follow from [i + 7] to the end of the frame. *)
Definition faults_at (str : list byte) (i : nat) : bool :=
  (key_at key_cols str i || key_at key_rows str i)
  && forallb is_sep (skipn (i + 7) str).

Definition faulty (str : list byte) : bool :=
  existsb (faults_at str) (positions str).

Definition is_digit (c : byte) : bool :=
  (code ch_zero <=? code c) && (code c <=? code ch_nine).

(** The integer a run of ASCII digits denotes, without any bound. *)
Definition decimal_from (num : Z) (ds : list byte) : Z :=
  fold_left (fun n c => n * 10 + (code c - code ch_zero)) ds num.

Definition decimal (ds : list byte) : Z := decimal_from 0 ds.

(** What follows a run of digits does not extend it. *)
Definition ends_run (rest : list byte) : bool :=
  match rest with
  | [] => true
  | c :: _ => negb (is_digit c)
  end.

(** The device size [handleResize] falls back to. *)
Definition default_size : Winsize := mkWinsize 24 80.

(** A terminal whose size an earlier frame has set to 40 rows by 100
    columns. The size of the device is the only geometry the session keeps. *)
Definition ptmx_40x100 : File := mkFile (mkWinsize 40 100) false.

(** *** Vocabulary for the statements about the session *)

Definition d2t_live (pc : d2t_pc) : nat :=
  match pc with
  | D_NotStarted | D_Exited => 0
  | _ => 1
  end.

(** The goroutine is running: started, and neither returned nor gone in a
    panic. *)
Definition t2d_live (pc : t2d_pc) : nat :=
  match pc with
  | T_NotStarted | T_Exited | T_Panicked _ => 0
  | _ => 1
  end.

Definition main_panicked (s : state) : bool :=
  match main s with
  | M_Panicked _ => true
  | _ => false
  end.

(** Process exit first: the shell ends, the orchestrator closes [done] and
    the websocket, the pending [ws.Read] fails and its goroutine closes
    [done] again. *)
Definition sched_exit_first : list (thread * response) :=
  [ (Main, RStart None); (Main, RWait false); (Main, RNone); (Main, RNone);
    (T2D, RRead (ReadErr false)); (T2D, RNone) ].

(** Transport error first: the peer goes away, the goroutine closes [done]
    and interrupts the process, the process ends and the orchestrator closes
    [done] again. *)
Definition sched_disconnect_first : list (thread * response) :=
  [ (Main, RStart None); (T2D, RRead (ReadErr true)); (T2D, RNone);
    (T2D, RNone); (Main, RWait true); (Main, RNone) ].

(** As [sched_disconnect_first], with the other goroutine already past its
    [select] and in [ptmx.Read] when the peer goes away. *)
Definition sched_release_under_reader : list (thread * response) :=
  [ (Main, RStart None); (D2T, RNone); (T2D, RRead (ReadErr true));
    (T2D, RNone); (T2D, RNone); (Main, RWait true); (Main, RNone) ].

(** ... and that read then ends, after the orchestrator has unwound. *)
Definition sched_read_after_release : list (thread * response) :=
  sched_release_under_reader ++ [ (D2T, RRead (ReadErr false)) ].

(** As [sched_exit_first], and on: the panicking goroutine has run its
    deferred [wg.Done()], the other goroutine sees [done] closed and
    returns, and the orchestrator passes [wg.Wait()] and returns before the
    runtime has ended the program. *)
Definition sched_panic_then_return : list (thread * response) :=
  sched_exit_first ++ [ (D2T, RNone); (Main, RNone); (Main, RNone) ].

(** The chunks the websocket delivers to [ws.Read] in a schedule, in
    order. *)
Definition delivered (sched : list (thread * response)) : list (list byte) :=
  flat_map (fun m => match m with
                     | (T2D, RRead (ReadOk data)) => [data]
                     | _ => []
                     end) sched.

(** The state a schedule leads to from [init] ([init] if it cannot run). *)
Definition state_after (sched : list (thread * response)) : state :=
  match runTerminalSession sched with
  | Some s => s
  | None => init
  end.

(** Keystrokes, then a resize frame, arrive on the websocket. *)
Definition sched_typing : list (thread * response) :=
  [ (Main, RStart None);
    (T2D, RRead (ReadOk (frame "ls"))); (T2D, RWrite true);
    (T2D, RRead (ReadOk (frame "{'cols':100,'rows':40}"))); (T2D, RNone);
    (T2D, RRead (ReadOk (frame "pwd"))) ].

(** The shell has printed something that is about to go to the websocket. *)
Definition sched_output : list (thread * response) :=
  [ (Main, RStart None); (D2T, RNone); (D2T, RRead (ReadOk (frame "out"))) ].

(** *** Invariants of the session *)

(** Nothing of the websocket-to-pty loop exists before the start, and what
    it has written or is about to write is what it read and must forward. *)
Definition demux_inv (s : state) : Prop :=
  (main s = M_Start -> t2d s = T_NotStarted) /\
  pty_writes (trace s) ++ t2d_pending s
  = filter forwarded (ws_reads (trace s)).

(** Where the orchestrator stands bounds what the rest of the session can
    be: nothing runs before the start; from [cmd.Wait] to the deferred call
    the handle is open, never closed before, and the WaitGroup counts the
    goroutines still running; after a normal return both are gone. *)
Definition release_inv (s : state) : Prop :=
  match main s with
  | M_Start =>
      d2t s = D_NotStarted /\ t2d s = T_NotStarted /\ ptmx s = None /\
      existsb is_pty_close (trace s) = false
  | M_Wait | M_CloseDone | M_WsClose | M_WgWait =>
      (exists sz, ptmx s = Some (mkFile sz false)) /\
      wg s = (d2t_live (d2t s) + t2d_live (t2d s))%nat /\
      existsb is_pty_close (trace s) = false
  | M_Deferred =>
      (exists sz, ptmx s = Some (mkFile sz false)) /\
      d2t_live (d2t s) = 0%nat /\ t2d_live (t2d s) = 0%nat /\
      existsb is_pty_close (trace s) = false
  | M_Returned =>
      d2t_live (d2t s) = 0%nat /\ t2d_live (t2d s) = 0%nat /\
      use_after_release (trace s) = false
  | M_Panicked _ => True
  end.

(** The orchestrator waits for the loops only with the websocket closed. *)
Definition ws_inv (s : state) : Prop :=
  match main s with
  | M_WgWait | M_Deferred | M_Returned => ws_closed s = true
  | _ => True
  end.

(** A [close(done)] goes through at most once: the second one panics. *)
Definition done_inv (s : state) : Prop :=
  count_event is_close_done (trace s)
  = if done_closed s then 1%nat else 0%nat.

Definition is_pty_write_log (e : event) : bool :=
  match e with
  | EvLog LogPtyWrite => true
  | _ => false
  end.



(** The websocket-to-pty goroutine has panicked before asking for the
    interrupt. *)
Definition gone_inv (p : panic) (s : state) : Prop :=
  main s <> M_Start /\ t2d s = T_Panicked p /\ crashed s = Some p /\
  count_event is_interrupt (trace s) = 0%nat.

(** ** More vocabulary for terminal.go *)

(** The frame [{"cols":<dc>,"rows":<dr>}] for two runs of bytes. *)
Definition resize_frame (dc dr : list byte) : list byte :=
  frame "{'cols':" ++ dc ++ frame ",'rows':" ++ dr ++ frame "}".

(** [if num > 0 { cur = num }] *)
Definition pick (cur num : Z) : Z := if num >? 0 then num else cur.

Definition size_ok (ws : Winsize) : Prop :=
  1 <= Rows ws <= 65535 /\ 1 <= Cols ws <= 65535.

Definition size_inv (s : state) : Prop :=
  match ptmx s with
  | Some f => size_ok (size f)
  | None => True
  end.

Definition interrupt_inv (s : state) : Prop :=
  (main s = M_Start -> t2d s = T_NotStarted) /\
  match t2d s with
  | T_Exited => (count_event is_interrupt (trace s) <= 1)%nat
  | T_Signal =>
      count_event is_interrupt (trace s) = 0%nat /\ done_closed s = true
  | _ => count_event is_interrupt (trace s) = 0%nat
  end.


Definition is_d2t (m : thread * response) : bool :=
  match fst m with
  | D2T => true
  | _ => false
  end.

(** The moves the loop can still make once [done] is closed: a read that is
    under way, the write of what it read, the [select]. *)
Definition d2t_rank (pc : d2t_pc) : nat :=
  match pc with
  | D_Read => 3
  | D_Write _ => 2
  | D_Select => 1
  | D_NotStarted | D_Exited => 0
  end.



(** ** main.go: intToStr *)

(** The conversion [rune(x)] of an [int]: the low 32 bits, signed. *)
Definition int32 (x : Z) : Z := (x + 2 ^ 31) mod 2 ^ 32 - 2 ^ 31.

(** The byte with the given value. *)
Definition byte_of (x : Z) : byte :=
  match Byte.of_N (Z.to_N (x mod 256)) with
  | Some b => b
  | None => x00
  end.

(** [string(r)] for a rune: its UTF-8 encoding, and that of U+FFFD for what
    is not a Unicode scalar value. *)
Definition string_of_rune (r : Z) : list byte :=
  if (r <? 0) || (1114111 <? r) || ((55296 <=? r) && (r <=? 57343))
  then [xef; xbf; xbd]
  else if r <? 128 then [byte_of r]
  else if r <? 2048 then
    [byte_of (Z.lor 192 (Z.shiftr r 6));
     byte_of (Z.lor 128 (Z.land r 63))]
  else if r <? 65536 then
    [byte_of (Z.lor 224 (Z.shiftr r 12));
     byte_of (Z.lor 128 (Z.land (Z.shiftr r 6) 63));
     byte_of (Z.lor 128 (Z.land r 63))]
  else
    [byte_of (Z.lor 240 (Z.shiftr r 18));
     byte_of (Z.lor 128 (Z.land (Z.shiftr r 12) 63));
     byte_of (Z.lor 128 (Z.land (Z.shiftr r 6) 63));
     byte_of (Z.lor 128 (Z.land r 63))].

(** [strings.TrimPrefix(s, prefix)] *)
Definition TrimPrefix (s prefix : list byte) : list byte :=
  if bytes_eqb (firstn (length prefix) s) prefix
  then skipn (length prefix) s
  else s.

(** [intToStr], main.go lines 99-101; [n/10] and [n%10] truncate towards
    zero. *)
Definition intToStr (n : Z) : list byte :=
  TrimPrefix
    (TrimPrefix
       (string_of_rune (int32 (code ch_zero + Z.quot n 10))
        ++ string_of_rune (int32 (code ch_zero + Z.rem n 10)))
       [ch_zero])
    [].

Definition two_digit_ok (n : Z) : bool :=
  forallb is_digit (intToStr n)
  && (decimal (intToStr n) =? n)
  && Nat.eqb (length (intToStr n)) (if n <? 10 then 1%nat else 2%nat).

Definition head_not_digit (s : list byte) : bool :=
  match s with
  | c :: _ => negb (is_digit c)
  | [] => false
  end.

(** ** cron.go: the job store *)

Notation "a +++ b" := (String.append a b) (at level 60, right associativity).

(** [time.Time], as an instant. *)
Definition GoTime : Type := Z.

Record CronSchedule : Type := mkCronSchedule {
  Second : string; Minute : string; Hour : string;
  Day : string; Month : string; Weekday : string
}.

Record CronJob : Type := mkCronJob {
  ID : string;
  Name : string;
  Schedule : CronSchedule;
  Command : string;
  Enabled : bool;
  LastRun : option GoTime;       (* *time.Time, nil when never run *)
  LastStatus : string;
  CreatedAt : GoTime
}.

(** A Go [map[string]*CronJob]: at most one entry a key, looked up by key.
    The order of the entries stands for the order in which [range] visits
    them, which Go leaves open. *)
Definition jobmap : Type := list (string * CronJob).

Fixpoint map_get (id : string) (m : jobmap) : option CronJob :=
  match m with
  | [] => None
  | (k, j) :: m' => if String.eqb k id then Some j else map_get id m'
  end.

(** [m[id] = job] *)
Fixpoint map_set (id : string) (job : CronJob) (m : jobmap) : jobmap :=
  match m with
  | [] => [(id, job)]
  | (k, j) :: m' =>
      if String.eqb k id then (id, job) :: m' else (k, j) :: map_set id job m'
  end.

(** [delete(m, id)] *)
Definition map_delete (id : string) (m : jobmap) : jobmap :=
  filter (fun e => negb (String.eqb (fst e) id)) m.

(** What [range] yields. *)
Definition map_values (m : jobmap) : list CronJob := map snd m.

(** A [sync.RWMutex]: free, held by [n] readers, or held by a writer. *)
Inductive rwmutex : Type :=
| MuFree
| MuRead (n : nat)     (* n + 1 readers *)
| MuWrite.

(** A file: absent, holding a value, or holding something else. For
    crons.json the value is an array of jobs, a JSON null in it being
    [None]: [load] finds in the file the array that [json.Unmarshal] makes
    of it, [save] leaves in it the array that it gave to
    [json.MarshalIndent]. The second is the first only for jobs whose
    strings are valid UTF-8: [json.MarshalIndent] writes any other byte as
    U+FFFD. *)
Inductive file (A : Type) : Type :=
| Missing
| Content (a : A)
| Garbage.

Arguments Missing {A}.
Arguments Content {A} a.
Arguments Garbage {A}.

(** The store with the files it reads and writes. *)
Record cronStore : Type := mkCronStore {
  mu : rwmutex;
  jobs : jobmap;
  crons_json : file (list (option CronJob));   (* s.path *)
  crontab : file string;                       (* dataDir/crontab *)
  host_crontab : file string    (* hostRoot/var/spool/cron/crontabs/root *)
}.

Definition set_mu (m : rwmutex) (s : cronStore) : cronStore :=
  mkCronStore m (jobs s) (crons_json s) (crontab s) (host_crontab s).
Definition set_jobs (m : jobmap) (s : cronStore) : cronStore :=
  mkCronStore (mu s) m (crons_json s) (crontab s) (host_crontab s).
Definition set_crons_json (f : file (list (option CronJob))) (s : cronStore)
  : cronStore :=
  mkCronStore (mu s) (jobs s) f (crontab s) (host_crontab s).
Definition set_crontab (f : file string) (s : cronStore) : cronStore :=
  mkCronStore (mu s) (jobs s) (crons_json s) f (host_crontab s).
Definition set_host_crontab (f : file string) (s : cronStore) : cronStore :=
  mkCronStore (mu s) (jobs s) (crons_json s) (crontab s) f.

(** How a call on the store ends: it returns, it waits on the mutex, the
    runtime stops the program (unlock of an unlocked mutex), or it panics
    (with its deferred unlock done). *)
Inductive outcome (A : Type) : Type :=
| Returned (a : A) (s : cronStore)
| Blocked (s : cronStore)
| Fatal (s : cronStore)
| Panicked (s : cronStore).

Arguments Returned {A} a s.
Arguments Blocked {A} s.
Arguments Fatal {A} s.
Arguments Panicked {A} s.

Definition action (A : Type) : Type := cronStore -> outcome A.

Definition ret {A : Type} (a : A) : action A := fun s => Returned a s.

Definition and_then {A B : Type} (m : action A) (k : A -> action B)
  : action B :=
  fun s =>
    match m s with
    | Returned a s' => k a s'
    | Blocked s' => Blocked s'
    | Fatal s' => Fatal s'
    | Panicked s' => Panicked s'
    end.

Notation "x <~ m ;; k" := (and_then m (fun x => k))
  (at level 61, m at next level, right associativity).
Notation "m ;;; k" := (and_then m (fun _ => k))
  (at level 61, right associativity).

(** [mu.Lock()], [mu.Unlock()], [mu.RLock()], [mu.RUnlock()] *)
Definition Lock : action unit := fun s =>
  match mu s with
  | MuFree => Returned tt (set_mu MuWrite s)
  | _ => Blocked s
  end.

Definition Unlock : action unit := fun s =>
  match mu s with
  | MuWrite => Returned tt (set_mu MuFree s)
  | _ => Fatal s
  end.

Definition RLock : action unit := fun s =>
  match mu s with
  | MuFree => Returned tt (set_mu (MuRead 0) s)
  | MuRead n => Returned tt (set_mu (MuRead (S n)) s)
  | MuWrite => Blocked s
  end.

Definition RUnlock : action unit := fun s =>
  match mu s with
  | MuRead O => Returned tt (set_mu MuFree s)
  | MuRead (S n) => Returned tt (set_mu (MuRead n) s)
  | _ => Fatal s
  end.

(** A Go [error]: nil, or its message. *)
Definition error : Type := option string.

(** What [os.WriteFile] does to a file: it writes it, or fails with a
    message and leaves the file in a state of its own choosing. *)
Inductive write_result (A : Type) : Type :=
| WriteOk
| WriteErr (msg : string) (after : file A).

Arguments WriteOk {A}.
Arguments WriteErr {A} msg after.

Definition modify (f : cronStore -> cronStore) : action unit :=
  fun s => Returned tt (f s).

Definition read {A : Type} (f : cronStore -> A) : action A :=
  fun s => Returned (f s) s.

(** What a write leaves in a file that held [old]. *)
Definition write_file {A : Type} (w : write_result A) (a : A) : file A :=
  match w with
  | WriteOk => Content a
  | WriteErr _ after => after
  end.

Definition write_error {A : Type} (w : write_result A) : error :=
  match w with
  | WriteOk => None
  | WriteErr msg _ => Some msg
  end.

(** The message of lines 137 and 161, compared with at lines 251 and 271. *)
Definition job_not_found : string := "job not found".

(** [(s *cronStore) save], lines 80-92: the jobs of the map, in the order
    [range] yields them, are marshalled and written to [s.path]. [w] is what
    marshalling and [os.WriteFile] come to. *)
Definition store_save (w : write_result (list (option CronJob)))
  : action error :=
  m <~ read jobs ;;
  modify (set_crons_json (write_file w (map Some (map_values m)))) ;;;
  ret (write_error w).

(** The loop of lines 74-76; the flag tells that a nil [*CronJob] was
    dereferenced. *)
Fixpoint load_jobs (l : list (option CronJob)) (m : jobmap) : jobmap * bool :=
  match l with
  | [] => (m, false)
  | None :: _ => (m, true)
  | Some job :: l' => load_jobs l' (map_set (ID job) job m)
  end.

(** [(s *cronStore) load], lines 57-78. [read_err] is an error of
    [os.ReadFile] other than the file not existing, [parse_msg] the message
    of [json.Unmarshal] when the file does not hold an array of jobs. *)
Definition store_load (read_err : error) (parse_msg : string) : action error :=
  Lock ;;;
  f <~ read crons_json ;;
  match f with
  | Missing => Unlock ;;; ret None
  | _ =>
      match read_err with
      | Some msg => Unlock ;;; ret (Some msg)
      | None =>
          match f with
          | Content l =>
              m <~ read jobs ;;
              let '(m', nil_deref) := load_jobs l m in
              modify (set_jobs m') ;;;
              Unlock ;;;
              if nil_deref then (fun s => Panicked s) else ret None
          | _ => Unlock ;;; ret (Some parse_msg)
          end
      end
  end.

(** [initCronStorage], lines 44-55: the store starts empty and loads. *)
Definition initCronStorage (mkdir_err read_err : error) (parse_msg : string)
  : action error :=
  match mkdir_err with
  | Some msg => ret (Some ("create data dir: " +++ msg))
  | None =>
      modify (fun s => set_jobs [] (set_mu MuFree s)) ;;;
      store_load read_err parse_msg
  end.

(** [(s *cronStore) list], lines 94-103. *)
Definition store_list : action (list CronJob) :=
  RLock ;;;
  m <~ read jobs ;;
  RUnlock ;;;
  ret (map_values m).

(** [(s *cronStore) get], lines 105-110. *)
Definition store_get (id : string) : action (option CronJob) :=
  RLock ;;;
  m <~ read jobs ;;
  RUnlock ;;;
  ret (map_get id m).

(** [getCronCount], lines 187-194, with the store set up. *)
Definition getCronCount : action Z :=
  RLock ;;;
  m <~ read jobs ;;
  RUnlock ;;;
  ret (Z.of_nat (length m)).

Definition nl : string := String (Ascii.ascii_of_nat 10) EmptyString.

Definition crontab_header : string :=
  "# Managed by cluster-manager - DO NOT EDIT".

(** The [fmt.Sprintf] of lines 344-352. *)
Definition crontab_line (job : CronJob) : string :=
  Minute (Schedule job) +++ " " +++ Hour (Schedule job) +++ " " +++
  Day (Schedule job) +++ " " +++ Month (Schedule job) +++ " " +++
  Weekday (Schedule job) +++ " " +++ Command job +++
  " # cluster-manager:" +++ ID job.

(** [lines] after the loop of lines 339-354. *)
Definition crontab_lines (m : jobmap) : list string :=
  crontab_header :: map crontab_line (filter Enabled (map_values m)).

(** [content] after the loop of lines 358-360. *)
Definition crontab_content (lines : list string) : string :=
  fold_left (fun content line => content +++ line +++ nl) lines EmptyString.

(** [syncCrontab], lines 332-367; [cw] and [hw] are what the two
    [os.WriteFile] come to, their errors are dropped. *)
Definition syncCrontab (cw hw : write_result string) : action unit :=
  RLock ;;;
  m <~ read jobs ;;
  let content := crontab_content (crontab_lines m) in
  modify (set_crontab (write_file cw content)) ;;;
  modify (set_host_crontab (write_file hw content)) ;;;
  RUnlock.

(** [(s *cronStore) create], lines 112-129. [id] is [uuid.New().String()],
    [now] is [time.Now()]. The job is changed through its pointer, so the
    caller sees it as returned here, and the map keeps that pointer. Jobs
    are values here: this is the call with a [*CronJob] that no entry of the
    map points to yet, which is what [handleCronCreate], the only caller,
    passes (the address of its local variable). Passing one pointer twice
    would leave one job under two keys, which a map of values cannot
    show. *)
Definition store_create (job : CronJob) (id : string) (now : GoTime)
  (w : write_result (list (option CronJob))) (cw hw : write_result string)
  : action (CronJob * error) :=
  Lock ;;;
  let job :=
    mkCronJob id (Name job) (Schedule job) (Command job) (Enabled job)
              (LastRun job) (LastStatus job) now in
  modify (fun s => set_jobs (map_set (ID job) job (jobs s)) s) ;;;
  err <~ store_save w ;;
  match err with
  | Some msg =>
      modify (fun s => set_jobs (map_delete (ID job) (jobs s)) s) ;;;
      Unlock ;;;
      ret (job, Some msg)
  | None =>
      (if Enabled job then syncCrontab cw hw else ret tt) ;;;
      Unlock ;;;
      ret (job, None)
  end.

(** [(s *cronStore) update], lines 131-153, called with a [*CronJob] of the
    caller's own, as [handleCronUpdate] does. *)
Definition store_update (id : string) (job : CronJob)
  (w : write_result (list (option CronJob))) (cw hw : write_result string)
  : action error :=
  Lock ;;;
  m <~ read jobs ;;
  match map_get id m with
  | None => Unlock ;;; ret (Some job_not_found)
  | Some existing =>
      let job :=
        mkCronJob id (Name job) (Schedule job) (Command job) (Enabled job)
                  (LastRun existing) (LastStatus existing)
                  (CreatedAt existing) in
      modify (fun s => set_jobs (map_set id job (jobs s)) s) ;;;
      err <~ store_save w ;;
      match err with
      | Some msg =>
          modify (fun s => set_jobs (map_set id existing (jobs s)) s) ;;;
          Unlock ;;;
          ret (Some msg)
      | None =>
          syncCrontab cw hw ;;;
          Unlock ;;;
          ret None
      end
  end.

(** [(s *cronStore) delete], lines 155-173. *)
Definition store_delete (id : string)
  (w : write_result (list (option CronJob))) (cw hw : write_result string)
  : action error :=
  Lock ;;;
  m <~ read jobs ;;
  match map_get id m with
  | None => Unlock ;;; ret (Some job_not_found)
  | Some existing =>
      modify (fun s => set_jobs (map_delete id (jobs s)) s) ;;;
      err <~ store_save w ;;
      match err with
      | Some msg =>
          modify (fun s => set_jobs (map_set id existing (jobs s)) s) ;;;
          Unlock ;;;
          ret (Some msg)
      | None =>
          syncCrontab cw hw ;;;
          Unlock ;;;
          ret None
      end
  end.

(** [(s *cronStore) updateRunStatus], lines 175-185; the error of [save] is
    dropped. *)
Definition store_updateRunStatus (id status : string) (now : GoTime)
  (w : write_result (list (option CronJob))) : action unit :=
  Lock ;;;
  m <~ read jobs ;;
  match map_get id m with
  | Some job =>
      let job :=
        mkCronJob (ID job) (Name job) (Schedule job) (Command job)
                  (Enabled job) (Some now) status (CreatedAt job) in
      modify (fun s => set_jobs (map_set id job (jobs s)) s) ;;;
      store_save w ;;;
      Unlock
  | None => Unlock
  end.

(** [validateSchedule], lines 309-329: the schedule as it is left behind
    the pointer; the error returned is always nil. *)
Definition default_field (field fallback : string) : string :=
  if String.eqb field EmptyString then fallback else field.

Definition validateSchedule (s : CronSchedule) : CronSchedule * error :=
  (mkCronSchedule (default_field (Second s) "0")
                  (default_field (Minute s) "*")
                  (default_field (Hour s) "*")
                  (default_field (Day s) "*")
                  (default_field (Month s) "*")
                  (default_field (Weekday s) "*"),
   None).

(** *** The HTTP handlers of the store *)

(** What a handler sends: the status code and the body, a line of text from
    [http.Error] or the value given to [writeJSON] (encoding it and writing
    it on the connection are taken to succeed). *)
Inductive body : Type :=
| BodyText (msg : string)
| BodyJob (job : option CronJob)     (* a *CronJob, null when nil *)
| BodyJobs (l : list CronJob)
| BodyStatus (status : string).      (* map[string]string{"status": status} *)

Record http_response : Type := mkResponse { status_code : Z; sent : body }.

(** [job.Name] or [job.Command] is the empty string. *)
Definition incomplete (job : CronJob) : bool :=
  String.eqb (Name job) EmptyString || String.eqb (Command job) EmptyString.

Definition with_schedule (job : CronJob) (sched : CronSchedule) : CronJob :=
  mkCronJob (ID job) (Name job) sched (Command job) (Enabled job)
            (LastRun job) (LastStatus job) (CreatedAt job).

(** [handleCronList], lines 196-199. *)
Definition handleCronList : action http_response :=
  l <~ store_list ;;
  ret (mkResponse 200 (BodyJobs l)).

(** [handleCronCreate], lines 201-225. [decoded] is what decoding the body
    into a zero [CronJob] gives, [None] when it fails. *)
Definition handleCronCreate (decoded : option CronJob)
  (id : string) (now : GoTime)
  (w : write_result (list (option CronJob))) (cw hw : write_result string)
  : action http_response :=
  match decoded with
  | None => ret (mkResponse 400 (BodyText "invalid payload"))
  | Some job =>
      if incomplete job
      then ret (mkResponse 400 (BodyText "name and command required"))
      else
        let '(sched, err) := validateSchedule (Schedule job) in
        let job := with_schedule job sched in
        match err with
        | Some msg => ret (mkResponse 400 (BodyText msg))
        | None =>
            r <~ store_create job id now w cw hw ;;
            match snd r with
            | Some msg => ret (mkResponse 500 (BodyText msg))
            | None => ret (mkResponse 201 (BodyJob (Some (fst r))))
            end
        end
  end.

(** The status for an error of the store, lines 251-255 and 271-275. *)
Definition store_error_response (msg : string) : http_response :=
  if String.eqb msg job_not_found
  then mkResponse 404 (BodyText msg)
  else mkResponse 500 (BodyText msg).

(** [handleCronUpdate], lines 227-261; [id] is [r.PathValue("id")]. *)
Definition handleCronUpdate (id : string) (decoded : option CronJob)
  (w : write_result (list (option CronJob))) (cw hw : write_result string)
  : action http_response :=
  if String.eqb id EmptyString
  then ret (mkResponse 400 (BodyText "id required"))
  else
    match decoded with
    | None => ret (mkResponse 400 (BodyText "invalid payload"))
    | Some job =>
        if incomplete job
        then ret (mkResponse 400 (BodyText "name and command required"))
        else
          let '(sched, err) := validateSchedule (Schedule job) in
          let job := with_schedule job sched in
          match err with
          | Some msg => ret (mkResponse 400 (BodyText msg))
          | None =>
              err <~ store_update id job w cw hw ;;
              match err with
              | Some msg => ret (store_error_response msg)
              | None =>
                  updatedJob <~ store_get id ;;
                  ret (mkResponse 200 (BodyJob updatedJob))
              end
          end
    end.

(** [handleCronDelete], lines 263-280. *)
Definition handleCronDelete (id : string)
  (w : write_result (list (option CronJob))) (cw hw : write_result string)
  : action http_response :=
  if String.eqb id EmptyString
  then ret (mkResponse 400 (BodyText "id required"))
  else
    err <~ store_delete id w cw hw ;;
    match err with
    | Some msg => ret (store_error_response msg)
    | None => ret (mkResponse 200 (BodyStatus "ok"))
    end.

(** *** Vocabulary for the statements about the store *)

Definition keys (m : jobmap) : list string := map fst m.

(** Every job is filed under its own ID, once. *)
Definition jobmap_wf (m : jobmap) : Prop :=
  NoDup (keys m) /\ Forall (fun e => ID (snd e) = fst e) m.

(** crons.json holds what [save] writes for the jobs in memory. *)
Definition disk_synced (s : cronStore) : Prop :=
  crons_json s = Content (map Some (map_values (jobs s))).

(** The store an outcome leaves. *)
Definition store_of {A : Type} (o : outcome A) : cronStore :=
  match o with
  | Returned _ s | Blocked s | Fatal s | Panicked s => s
  end.

(** The calls the HTTP handlers and the job runner make on the store. Each
    [CallCreate] and [CallUpdate] brings a job of its own, as the handlers
    do. *)
Inductive call : Type :=
| CallList
| CallGet (id : string)
| CallCount
| CallCreate (job : CronJob) (id : string) (now : GoTime)
    (w : write_result (list (option CronJob))) (cw hw : write_result string)
| CallUpdate (id : string) (job : CronJob)
    (w : write_result (list (option CronJob))) (cw hw : write_result string)
| CallDelete (id : string)
    (w : write_result (list (option CronJob))) (cw hw : write_result string)
| CallRunStatus (id status : string) (now : GoTime)
    (w : write_result (list (option CronJob))).

(** A call with its result dropped. *)
Definition run_call (c : call) : action unit :=
  match c with
  | CallList => store_list ;;; ret tt
  | CallGet id => store_get id ;;; ret tt
  | CallCount => getCronCount ;;; ret tt
  | CallCreate job id now w cw hw =>
      store_create job id now w cw hw ;;; ret tt
  | CallUpdate id job w cw hw => store_update id job w cw hw ;;; ret tt
  | CallDelete id w cw hw => store_delete id w cw hw ;;; ret tt
  | CallRunStatus id status now w => store_updateRunStatus id status now w
  end.

(** The store after a call, however the call ends. *)
Definition perform (c : call) (s : cronStore) : cronStore :=
  store_of (run_call c s).

Definition perform_all (cs : list call) (s : cronStore) : cronStore :=
  fold_left (fun s c => perform c s) cs s.

(** The job a request leaves in the map: what the caller sent, under the
    given ID and dates. *)
Definition stamped (job : CronJob) (id : string) (last_run : option GoTime)
  (last_status : string) (created : GoTime) : CronJob :=
  mkCronJob id (Name job) (Schedule job) (Command job) (Enabled job)
            last_run last_status created.

Definition has_ID (id : string) (job : CronJob) : bool :=
  String.eqb (ID job) id.

Definition fields (s : CronSchedule) : list string :=
  [Second s; Minute s; Hour s; Day s; Month s; Weekday s].

Fixpoint count_nl (s : string) : nat :=
  match s with
  | EmptyString => 0
  | String c s' =>
      ((if Ascii.eqb c (Ascii.ascii_of_nat 10) then 1 else 0) + count_nl s')%nat
  end.

Definition enabled_jobs (m : jobmap) : list CronJob :=
  filter Enabled (map_values m).

Definition sample_schedule : CronSchedule :=
  mkCronSchedule "0"%string "30"%string "2"%string "*"%string "*"%string "*"%string.

(** A nightly backup, as a request body gives it. *)
Definition sample_job (enabled : bool) : CronJob :=
  mkCronJob EmptyString "backup"%string sample_schedule "tar czf /backup.tgz /etc"%string
            enabled None EmptyString 0.

(** A store that has just been set up on an empty data directory. *)
Definition empty_store : cronStore :=
  mkCronStore MuFree [] Missing Missing Missing.

(** The store after the disabled backup job was created under the ID a1. *)
Definition sample_store : cronStore :=
  let job := stamped (sample_job false) "a1"%string None EmptyString 100 in
  mkCronStore MuFree [("a1"%string, job)] (Content [Some job]) Missing Missing.

(** ** Properties of the decoder *)

(** What the frames of the examples are, byte by byte. *)
Example frame_cols_132 :
  frame "{'cols':132}" =
  [x7b; x22; x63; x6f; x6c; x73; x22; x3a; x31; x33; x32; x7d].
Proof. reflexivity. Qed.

Example frame_key_cols : frame "'cols'" = key_cols.
Proof. reflexivity. Qed.

Example frame_key_rows : frame "'rows'" = key_rows.
Proof. reflexivity. Qed.

(** The separator condition faults exactly when [j] is at or past the end:
    the bound check guards only its first disjunct. *)
Lemma sep_cond_spec (str : list byte) (j : nat) :
  sep_cond str j =
  match nth_error str j with
  | Some c => Ok (Byte.eqb c ch_space || Byte.eqb c ch_colon)
  | None => Panic IndexOutOfRange
  end.
Proof.
  unfold sep_cond, index.
  destruct (nth_error str j) as [c|] eqn:E.
  - assert (j < length str)%nat as Hlt by (apply nth_error_Some; congruence).
    apply Nat.ltb_lt in Hlt. rewrite Hlt. simpl.
    destruct (Byte.eqb c ch_space); reflexivity.
  - apply nth_error_None in E. apply Nat.ltb_ge in E. rewrite E. reflexivity.
Qed.

Lemma digit_cond_spec (str : list byte) (j : nat) :
  digit_cond str j =
  match nth_error str j with
  | Some c => Ok ((code ch_zero <=? code c) && (code c <=? code ch_nine))
  | None => Ok false
  end.
Proof.
  unfold digit_cond, index.
  destruct (nth_error str j) as [c|] eqn:E.
  - assert (j < length str)%nat as Hlt by (apply nth_error_Some; congruence).
    apply Nat.ltb_lt in Hlt. rewrite Hlt. simpl.
    destruct (code ch_zero <=? code c); reflexivity.
  - apply nth_error_None in E. apply Nat.ltb_ge in E. rewrite E. reflexivity.
Qed.

(** The two inner loops stop before their fuel does. *)
Lemma skip_sep_fuel (fuel : nat) : forall (str : list byte) (j : nat),
  (length str <= fuel + j)%nat -> skip_sep fuel str j <> OutOfFuel.
Proof.
  induction fuel as [|fuel IH]; intros str j Hlen; simpl;
    rewrite sep_cond_spec; destruct (nth_error str j) as [c|] eqn:E; simpl;
    try discriminate.
  - simpl in Hlen. apply nth_error_None in Hlen. congruence.
  - destruct (_ || _); [|discriminate]. apply IH. lia.
Qed.

Lemma scan_num_fuel (fuel : nat) : forall (str : list byte) (j : nat) (num : Z),
  (length str <= fuel + j)%nat -> scan_num fuel str j num <> OutOfFuel.
Proof.
  induction fuel as [|fuel IH]; intros str j num Hlen; simpl;
    rewrite digit_cond_spec; destruct (nth_error str j) as [c|] eqn:E; simpl;
    try discriminate.
  - simpl in Hlen. apply nth_error_None in Hlen. congruence.
  - destruct (_ && _); [|discriminate].
    unfold index. rewrite E. simpl. apply IH. lia.
Qed.

Lemma field_num_fuel (str : list byte) (i : nat) :
  field_num str i <> OutOfFuel.
Proof.
  unfold field_num.
  destruct (skip_sep (length str) str (i + 7)) as [j| |] eqn:E; simpl.
  - apply scan_num_fuel. lia.
  - discriminate.
  - exfalso. revert E. apply skip_sep_fuel. lia.
Qed.

Lemma parse_key_fuel (key str : list byte) (i : nat) (cur : Z) :
  parse_key key str i cur <> OutOfFuel.
Proof.
  unfold parse_key. destruct (substr str i (i + 6)) as [s| |] eqn:E; simpl.
  - destruct (bytes_eqb s key); [|discriminate].
    pose proof (field_num_fuel str i) as H.
    destruct (field_num str i); simpl; [discriminate|discriminate|now elim H].
  - discriminate.
  - unfold substr in E. destruct (_ && _); discriminate.
Qed.

Lemma scan_loop_fuel (n : nat) : forall (str : list byte) (i : nat) (g : Z * Z),
  scan_loop n str i g <> OutOfFuel.
Proof.
  induction n as [|n IH]; intros str i g; simpl; [discriminate|].
  unfold scan_body.
  pose proof (parse_key_fuel key_cols str i (fst g)) as Hc.
  destruct (parse_key key_cols str i (fst g)) as [c| |]; simpl;
    [|discriminate|now elim Hc].
  pose proof (parse_key_fuel key_rows str i (snd g)) as Hr.
  destruct (parse_key key_rows str i (snd g)) as [r| |]; simpl;
    [|discriminate|now elim Hr].
  apply IH.
Qed.

(** [handleResize] always ends: in a value or in a Go panic. *)
Lemma handleResize_fuel (ptmx : File) (data : list byte) :
  handleResize ptmx data <> OutOfFuel.
Proof.
  unfold handleResize, decode.
  destruct (10 <? length data)%nat; simpl; [|discriminate].
  pose proof (scan_loop_fuel (length data - 5) data 0 (80, 24)) as H.
  destruct (scan_loop _ _ _ _) as [[c r]| |]; simpl;
    [discriminate|discriminate|now elim H].
Qed.

(** *** How the inner loops behave *)

Lemma skipn_nth_error_Some (str : list byte) : forall (j : nat) (c : byte),
  nth_error str j = Some c -> skipn j str = c :: skipn (S j) str.
Proof.
  induction str as [|a str IH]; intros [|j] c H; simpl in *; try discriminate.
  - congruence.
  - now apply IH.
Qed.

Lemma skipn_nth_error_None (str : list byte) (j : nat) :
  nth_error str j = None -> skipn j str = [].
Proof.
  intros H. apply skipn_all2. now apply nth_error_None.
Qed.

(** The separator loop faults exactly when nothing but separators is left
    from [j] on; otherwise it stops at the first other byte. *)
Lemma skip_sep_spec (fuel : nat) : forall (str : list byte) (j : nat),
  (length str <= fuel + j)%nat ->
  if forallb is_sep (skipn j str)
  then skip_sep fuel str j = Panic IndexOutOfRange
  else exists j', skip_sep fuel str j = Ok j'.
Proof.
  induction fuel as [|fuel IH]; intros str j Hlen; simpl skip_sep;
    rewrite sep_cond_spec; destruct (nth_error str j) as [c|] eqn:E.
  - simpl in Hlen. apply nth_error_None in Hlen. congruence.
  - rewrite (skipn_nth_error_None _ _ E). reflexivity.
  - rewrite (skipn_nth_error_Some _ _ _ E). cbn [forallb bind].
    fold (is_sep c). destruct (is_sep c); cbn [andb].
    + apply (IH str (S j)). lia.
    + eauto.
  - rewrite (skipn_nth_error_None _ _ E). reflexivity.
Qed.

(** The digit loop never faults: its bound check guards every index. *)
Lemma scan_num_Ok (fuel : nat) : forall (str : list byte) (j : nat) (num : Z),
  (length str <= fuel + j)%nat -> exists v, scan_num fuel str j num = Ok v.
Proof.
  induction fuel as [|fuel IH]; intros str j num Hlen; simpl scan_num;
    rewrite digit_cond_spec; destruct (nth_error str j) as [c|] eqn:E; simpl;
    eauto.
  - simpl in Hlen. apply nth_error_None in Hlen. congruence.
  - destruct (_ && _); simpl; eauto.
    unfold index. rewrite E. simpl. apply IH. lia.
Qed.

Lemma field_num_spec (str : list byte) (i : nat) :
  if forallb is_sep (skipn (i + 7) str)
  then field_num str i = Panic IndexOutOfRange
  else exists v, field_num str i = Ok v.
Proof.
  unfold field_num.
  pose proof (skip_sep_spec (length str) str (i + 7)) as H.
  destruct (forallb is_sep (skipn (i + 7) str)).
  - rewrite H by lia. reflexivity.
  - destruct H as [j' H]; [lia|]. rewrite H. simpl.
    apply scan_num_Ok. lia.
Qed.

Lemma substr_in_range (str : list byte) (i : nat) :
  (i + 6 <= length str)%nat ->
  substr str i (i + 6) = Ok (firstn 6 (skipn i str)).
Proof.
  intros H. unfold substr.
  replace (i <=? i + 6)%nat with true by (symmetry; apply Nat.leb_le; lia).
  replace (i + 6 <=? length str)%nat with true
    by (symmetry; apply Nat.leb_le; lia).
  cbn [andb]. replace (i + 6 - i)%nat with 6%nat by lia. reflexivity.
Qed.

Lemma parse_key_spec (key str : list byte) (i : nat) (cur : Z) :
  (i + 6 <= length str)%nat ->
  if key_at key str i && forallb is_sep (skipn (i + 7) str)
  then parse_key key str i cur = Panic IndexOutOfRange
  else exists v, parse_key key str i cur = Ok v.
Proof.
  intros H. unfold parse_key, key_at. rewrite substr_in_range by exact H.
  simpl. destruct (bytes_eqb _ key); simpl; eauto.
  pose proof (field_num_spec str i) as F.
  destruct (forallb is_sep (skipn (i + 7) str)).
  - now rewrite F.
  - destruct F as [v F]. rewrite F. simpl. eauto.
Qed.

Lemma scan_body_spec (str : list byte) (i : nat) (g : Z * Z) :
  (i + 6 <= length str)%nat ->
  if faults_at str i
  then scan_body str i g = Panic IndexOutOfRange
  else exists g', scan_body str i g = Ok g'.
Proof.
  intros H. unfold scan_body, faults_at.
  pose proof (parse_key_spec key_cols str i (fst g) H) as Hc.
  pose proof (parse_key_spec key_rows str i (snd g) H) as Hr.
  destruct (forallb is_sep (skipn (i + 7) str));
    destruct (key_at key_cols str i); cbn [andb orb] in *;
    try (rewrite Hc; reflexivity);
    destruct Hc as [c Hc]; rewrite Hc; cbn [bind];
    destruct (key_at key_rows str i); cbn [andb orb] in *;
    try (rewrite Hr; reflexivity);
    destruct Hr as [r Hr]; rewrite Hr; cbn [bind]; eauto.
Qed.

Lemma scan_loop_spec (n : nat) : forall (str : list byte) (i : nat) (g : Z * Z),
  (i + n + 5 <= length str)%nat ->
  if existsb (faults_at str) (seq i n)
  then scan_loop n str i g = Panic IndexOutOfRange
  else exists g', scan_loop n str i g = Ok g'.
Proof.
  induction n as [|n IH]; intros str i g Hlen; simpl; eauto.
  pose proof (scan_body_spec str i g) as B.
  destruct (faults_at str i); simpl.
  - rewrite B by lia. reflexivity.
  - destruct B as [g' B]; [lia|]. rewrite B. simpl. apply IH. lia.
Qed.

(** When [handleResize] ends in a Go panic and when it returns. *)
Lemma handleResize_faulty_iff (ptmx : File) (data : list byte) :
  if faulty data
  then handleResize ptmx data = Panic IndexOutOfRange
  else exists ws, handleResize ptmx data = Ok (Setsize ptmx ws).
Proof.
  unfold faulty, positions, handleResize, decode.
  destruct (10 <? length data)%nat eqn:G; simpl.
  - apply Nat.ltb_lt in G.
    pose proof (scan_loop_spec (length data - 5) data 0 (80, 24)) as L.
    destruct (existsb _ _).
    + rewrite L by lia. reflexivity.
    + destruct L as [[c r] L]; [lia|]. rewrite L. simpl. eauto.
  - eauto.
Qed.

(** *** What the outer loop leaves in [cols] and [rows] *)

Lemma parse_key_unset (key str : list byte) (i : nat) (cur v : Z) :
  parse_key key str i cur = Ok v ->
  negb (key_at key str i) || not_positive (field_num str i) = true ->
  v = cur.
Proof.
  unfold parse_key, key_at.
  destruct (substr str i (i + 6)) as [s| |]; cbn [bind]; try discriminate.
  destruct (bytes_eqb s key); cbn [negb orb]; [|congruence].
  destruct (field_num str i) as [num| |]; cbn [bind not_positive];
    try discriminate.
  intros H Hn. destruct (num >? 0); [discriminate|congruence].
Qed.

Lemma scan_loop_cols_unset (n : nat) :
  forall (str : list byte) (i : nat) (g g' : Z * Z),
  scan_loop n str i g = Ok g' ->
  forallb (fun i => negb (key_at key_cols str i)
                    || not_positive (field_num str i)) (seq i n) = true ->
  fst g' = fst g.
Proof.
  induction n as [|n IH]; intros str i g g' H U; simpl in H.
  - congruence.
  - cbn [seq forallb] in U. apply andb_prop in U as [U1 U2].
    unfold scan_body in H.
    destruct (parse_key key_cols str i (fst g)) as [c| |] eqn:Ec;
      cbn [bind] in H; try discriminate.
    destruct (parse_key key_rows str i (snd g)) as [r| |] eqn:Er;
      cbn [bind] in H; try discriminate.
    rewrite (IH _ _ _ _ H U2). simpl. exact (parse_key_unset _ _ _ _ _ Ec U1).
Qed.

Lemma scan_loop_rows_unset (n : nat) :
  forall (str : list byte) (i : nat) (g g' : Z * Z),
  scan_loop n str i g = Ok g' ->
  forallb (fun i => negb (key_at key_rows str i)
                    || not_positive (field_num str i)) (seq i n) = true ->
  snd g' = snd g.
Proof.
  induction n as [|n IH]; intros str i g g' H U; simpl in H.
  - congruence.
  - cbn [seq forallb] in U. apply andb_prop in U as [U1 U2].
    unfold scan_body in H.
    destruct (parse_key key_cols str i (fst g)) as [c| |] eqn:Ec;
      cbn [bind] in H; try discriminate.
    destruct (parse_key key_rows str i (snd g)) as [r| |] eqn:Er;
      cbn [bind] in H; try discriminate.
    rewrite (IH _ _ _ _ H U2). simpl. exact (parse_key_unset _ _ _ _ _ Er U1).
Qed.

Lemma decode_cols_unset (data : list byte) (g : Z * Z) :
  decode data = Ok g -> axis_unset key_cols data = true -> fst g = 80.
Proof.
  unfold decode, axis_unset, positions.
  destruct (10 <? length data)%nat; intros H U.
  - exact (scan_loop_cols_unset _ _ _ _ _ H U).
  - now inversion H.
Qed.

Lemma decode_rows_unset (data : list byte) (g : Z * Z) :
  decode data = Ok g -> axis_unset key_rows data = true -> snd g = 24.
Proof.
  unfold decode, axis_unset, positions.
  destruct (10 <? length data)%nat; intros H U.
  - exact (scan_loop_rows_unset _ _ _ _ _ H U).
  - now inversion H.
Qed.

Lemma handleResize_Ok_inv (ptmx ptmx' : File) (data : list byte) :
  handleResize ptmx data = Ok ptmx' ->
  exists cols rows,
    decode data = Ok (cols, rows) /\
    ptmx' = Setsize ptmx (mkWinsize rows cols).
Proof.
  unfold handleResize.
  destruct (decode data) as [[c r]| |]; cbn [bind]; try discriminate.
  intros H. inversion H. eauto.
Qed.

(** A frame without the key literals gives no number for either axis and
    does not make the decoder fault. *)
Lemma no_key_unset (data : list byte) :
  no_key data = true ->
  axis_unset key_cols data = true /\ axis_unset key_rows data = true /\
  faulty data = false.
Proof.
  unfold no_key, axis_unset, faulty. intros H.
  rewrite forallb_forall in H. repeat split.
  - apply forallb_forall. intros i Hi. specialize (H i Hi).
    apply negb_true_iff, orb_false_elim in H as [H _]. now rewrite H.
  - apply forallb_forall. intros i Hi. specialize (H i Hi).
    apply negb_true_iff, orb_false_elim in H as [_ H]. now rewrite H.
  - apply not_true_is_false. intros E. apply existsb_exists in E as (i & Hi & E).
    specialize (H i Hi). unfold faults_at in E.
    apply negb_true_iff in H. rewrite H in E. discriminate.
Qed.

(** Frames without the key literals, the empty object among them, put the
    terminal at the default size. *)
Lemma handleResize_no_key (ptmx : File) (data : list byte) :
  no_key data = true ->
  handleResize ptmx data = Ok (Setsize ptmx default_size).
Proof.
  intros N. destruct (no_key_unset _ N) as (Uc & Ur & F).
  pose proof (handleResize_faulty_iff ptmx data) as H. rewrite F in H.
  destruct H as [ws H]. rewrite H.
  apply handleResize_Ok_inv in H as (cols & rows & D & ->).
  pose proof (decode_cols_unset _ _ D Uc) as Hc.
  pose proof (decode_rows_unset _ _ D Ur) as Hr.
  simpl in Hc, Hr. subst cols rows. reflexivity.
Qed.

(** *** The digit loop in 16 bits *)

Lemma decimal_from_mod (m : Z) (ds : list byte) : forall a b : Z,
  a mod m = b mod m -> decimal_from a ds mod m = decimal_from b ds mod m.
Proof.
  unfold decimal_from.
  induction ds as [|d ds IH]; intros a b H; simpl; [exact H|].
  apply IH.
  rewrite (Zplus_mod (a * 10)), (Zplus_mod (b * 10)).
  rewrite (Zmult_mod a), (Zmult_mod b), H. reflexivity.
Qed.

Lemma digit_value_range (c : byte) :
  is_digit c = true -> 0 <= code c - code ch_zero <= 9.
Proof.
  unfold is_digit. intros H. apply andb_prop in H as [H1 H2].
  apply Z.leb_le in H1, H2. change (code ch_nine) with 57 in H2.
  change (code ch_zero) with 48 in *. lia.
Qed.

Lemma nth_error_middle (pre tl : list byte) (d : byte) :
  nth_error (pre ++ d :: tl) (length pre) = Some d.
Proof.
  rewrite nth_error_app2 by lia. now rewrite Nat.sub_diag.
Qed.

Lemma scan_num_unfold (fuel : nat) (str : list byte) (j : nat) (num : Z) :
  scan_num fuel str j num =
  (b <- digit_cond str j ;;
   if b then
     c <- index str j ;;
     match fuel with
     | O => OutOfFuel
     | S fuel' =>
         scan_num fuel' str (S j)
           (uint16 (num * 10 + uint16 (uint8 (code c - code ch_zero))))
     end
   else Ok num).
Proof. destruct fuel; reflexivity. Qed.

Lemma scan_num_run (ds : list byte) :
  forall (fuel : nat) (pre rest : list byte) (num : Z),
  forallb is_digit ds = true -> ends_run rest = true ->
  (length (pre ++ ds ++ rest) <= fuel + length pre)%nat ->
  0 <= num < 65536 ->
  scan_num fuel (pre ++ ds ++ rest) (length pre) num
  = Ok (uint16 (decimal_from num ds)).
Proof.
  induction ds as [|d ds IH]; intros fuel pre rest num Hd Hr Hlen Hnum.
  - change (pre ++ [] ++ rest) with (pre ++ rest) in *.
    assert (digit_cond (pre ++ rest) (length pre) = Ok false) as C.
    { rewrite digit_cond_spec. destruct rest as [|c rest].
      - rewrite app_nil_r.
        replace (nth_error pre (length pre)) with (@None byte);
          [reflexivity|]. symmetry. apply nth_error_None. lia.
      - rewrite nth_error_middle. simpl in Hr. unfold is_digit in Hr.
        apply negb_true_iff in Hr. now rewrite Hr. }
    rewrite scan_num_unfold, C. cbn [bind]. f_equal.
    unfold uint16, decimal_from. simpl. now rewrite Z.mod_small.
  - cbn [forallb] in Hd. apply andb_prop in Hd as [Hd1 Hd2].
    change (pre ++ (d :: ds) ++ rest) with (pre ++ d :: ds ++ rest) in *.
    assert (digit_cond (pre ++ d :: ds ++ rest) (length pre) = Ok true) as C.
    { rewrite digit_cond_spec, nth_error_middle.
      unfold is_digit in Hd1. now rewrite Hd1. }
    assert (index (pre ++ d :: ds ++ rest) (length pre) = Ok d) as I.
    { unfold index. now rewrite nth_error_middle. }
    rewrite scan_num_unfold, C. cbn [bind]. rewrite I. cbn [bind].
    destruct fuel as [|fuel].
    + rewrite length_app in Hlen. simpl in Hlen. lia.
    + pose proof (digit_value_range d Hd1) as R.
      assert (uint16 (uint8 (code d - code ch_zero)) = code d - code ch_zero)
        as V.
      { unfold uint16, uint8. rewrite (Z.mod_small _ 256) by lia.
        apply Z.mod_small. lia. }
      rewrite V.
      replace (pre ++ d :: ds ++ rest) with ((pre ++ [d]) ++ ds ++ rest)
        by (rewrite <- app_assoc; reflexivity).
      replace (S (length pre)) with (length (pre ++ [d]))
        by (rewrite length_app; simpl; lia).
      rewrite IH; try assumption.
      * f_equal. unfold uint16 at 1 3.
        change (decimal_from num (d :: ds))
          with (decimal_from (num * 10 + (code d - code ch_zero)) ds).
        apply decimal_from_mod. unfold uint16. apply Z.mod_mod. lia.
      * rewrite ?length_app in Hlen |- *. cbn [length] in Hlen |- *.
        rewrite ?length_app in Hlen |- *. cbn [length] in Hlen |- *.
        rewrite ?length_app. lia.
      * unfold uint16. apply Z.mod_pos_bound. lia.
Qed.


(** ** The claims about the decoder *)

(** C1, as the code has it: [handleResize] keeps no earlier geometry. An axis
    for which the frame gives no positive number (key absent, or the number
    read not positive) is set to the literal the locals start from, 80
    columns or 24 rows, whatever the size of the terminal was. *)
Theorem handleResize_unset_axis_default
  (ptmx ptmx' : File) (data : list byte) :
  handleResize ptmx data = Ok ptmx' ->
  (axis_unset key_cols data = true -> Cols (size ptmx') = 80) /\
  (axis_unset key_rows data = true -> Rows (size ptmx') = 24).
Proof.
  intros H. apply handleResize_Ok_inv in H as (cols & rows & D & ->).
  split; intros U; simpl.
  - exact (decode_cols_unset _ _ D U).
  - exact (decode_rows_unset _ _ D U).
Qed.

(** C1, witness: the frame with only cols on a terminal of 40 by 100. *)
Lemma handleResize_unset_axis_default_witness :
  axis_unset key_rows (frame "{'cols':132}") = true /\
  Rows (size (mkFile (mkWinsize 24 132) false)) = 24.
Proof.
  split; [reflexivity|].
  apply (handleResize_unset_axis_default ptmx_40x100 _ (frame "{'cols':132}"));
    reflexivity.
Defined.

(** C1, counterexample: on a terminal of 40 rows by 100 columns, the frame
    with only cols=132 sets the rows to 24, and the frame with cols=0 and
    rows=40 sets the columns to 80; neither axis keeps its last value. *)
Lemma handleResize_forgets_geometry :
  handleResize ptmx_40x100 (frame "{'cols':132}")
    = Ok (mkFile (mkWinsize 24 132) false) /\
  24 <> Rows (size ptmx_40x100) /\
  handleResize ptmx_40x100 (frame "{'cols':0,'rows':40}")
    = Ok (mkFile (mkWinsize 40 80) false) /\
  80 <> Cols (size ptmx_40x100).
Proof. repeat split; try reflexivity; discriminate. Qed.

(** C2, at failing inputs: a frame that ends with a key, a frame cut after
    the colon of its last key, and a key followed by spaces to the end each
    make [handleResize] index past the end of the string, a Go panic. *)
Theorem handleResize_index_out_of_range (ptmx : File) :
  handleResize ptmx (frame "{'abc':1,'cols'") = Panic IndexOutOfRange /\
  handleResize ptmx (frame "{'cols':80,'rows':") = Panic IndexOutOfRange /\
  handleResize ptmx (frame "{'rows':    ") = Panic IndexOutOfRange.
Proof. repeat split. Qed.

(** C4, as the code has it: a frame that gives no positive number for either
    axis and on which the decoder returns (so the empty object, every frame
    of at most 10 bytes and garbage without the key literals) is not a no-op:
    the terminal is set to the default 24 rows by 80 columns. *)
Theorem handleResize_unparsable_sets_default
  (ptmx : File) (data : list byte) :
  axis_unset key_cols data = true ->
  axis_unset key_rows data = true ->
  faulty data = false ->
  handleResize ptmx data = Ok (Setsize ptmx default_size).
Proof.
  intros Uc Ur F.
  pose proof (handleResize_faulty_iff ptmx data) as H. rewrite F in H.
  destruct H as [ws H]. rewrite H.
  apply handleResize_Ok_inv in H as (cols & rows & D & ->).
  pose proof (decode_cols_unset _ _ D Uc) as Hc.
  pose proof (decode_rows_unset _ _ D Ur) as Hr.
  simpl in Hc, Hr. subst cols rows. reflexivity.
Qed.

(** C4, witness: the empty object. *)
Lemma handleResize_unparsable_sets_default_witness :
  handleResize ptmx_40x100 (frame "{}") = Ok (Setsize ptmx_40x100 default_size).
Proof.
  apply (handleResize_unparsable_sets_default ptmx_40x100 (frame "{}"));
    reflexivity.
Defined.

(** C4, counterexample: on a terminal of 40 rows by 100 columns the empty
    object, and garbage after a brace, change the size to 24 by 80. *)
Lemma handleResize_garbage_resets_size :
  handleResize ptmx_40x100 (frame "{}")
    = Ok (mkFile (mkWinsize 24 80) false) /\
  handleResize ptmx_40x100 (frame "{garbage, no keys}")
    = Ok (mkFile (mkWinsize 24 80) false) /\
  mkFile (mkWinsize 24 80) false <> ptmx_40x100.
Proof. repeat split; try reflexivity; discriminate. Qed.



(** ** Properties of the session *)

(** What holds at the start and is kept by every step holds after every
    schedule. *)
Lemma run_invariant (P : state -> Prop) :
  (forall s t r s', P s -> step s t r = Some s' -> P s') ->
  forall sched s s', P s -> run sched s = Some s' -> P s'.
Proof.
  intros Hstep sched. induction sched as [|[t r] sched IH]; intros s s' Hs H;
    simpl in H.
  - inversion H. subst. exact Hs.
  - destruct (step s t r) as [s1|] eqn:E; [|discriminate].
    exact (IH _ _ (Hstep _ _ _ _ Hs E) H).
Qed.

(** Projections of updated states are computed lazily, so that nested
    updates are not copied, and the projections of [s] folded back. *)
Ltac unfold_updates s :=
  lazy beta iota zeta delta
    [d2t_exit t2d_exit t2d_panic close_ptmx ptmx_closed set_main set_d2t set_t2d
     set_done_closed set_ws_closed set_ptmx set_wg set_crashed emit
     main d2t t2d done_closed ws_closed ptmx wg crashed trace option_map
     closed size] in *;
  fold (main s) (d2t s) (t2d s) (done_closed s) (ws_closed s) (ptmx s)
       (wg s) (crashed s) (trace s) in *.

(** Case analysis on one step: which thread moved, from which statement,
    with which answer. *)
Ltac split_ifs H :=
  repeat match type of H with
         | context [if ?b then _ else _] => destruct b eqn:?
         | context [match wg ?s with O => _ | S _ => _ end] =>
             destruct (wg s) eqn:?
         | context [match ptmx ?s with Some _ => _ | None => _ end] =>
             destruct (ptmx s) eqn:?
         | context [match handleResize ?f ?d with _ => _ end] =>
             destruct (handleResize f d) eqn:?
         end;
  try discriminate.

Ltac step_cases H s t r :=
  unfold step in H;
  destruct t;
  [ unfold main_step in H; destruct (main s) eqn:?;
    destruct r as [|[?|]|?|?|?]; try discriminate
  | unfold d2t_step in H; destruct (d2t s) eqn:?;
    destruct r as [|?|?|[[|? ?]|?]|?]; try discriminate
  | unfold t2d_step in H; destruct (t2d s) eqn:?;
    destruct r as [|?|?|[[|? ?]|?]|?]; try discriminate ];
  split_ifs H;
  injection H as <-; unfold_updates s.

Lemma pty_writes_app (a b : list event) :
  pty_writes (a ++ b) = pty_writes a ++ pty_writes b.
Proof. apply flat_map_app. Qed.

Lemma ws_reads_app (a b : list event) :
  ws_reads (a ++ b) = ws_reads a ++ ws_reads b.
Proof. apply flat_map_app. Qed.

(** *** The websocket-to-pty loop forwards what is not a control frame *)

Lemma demux_inv_init : demux_inv init.
Proof. split; reflexivity. Qed.

Lemma demux_inv_step (s : state) (t : thread) (r : response) (s' : state) :
  demux_inv s -> step s t r = Some s' -> demux_inv s'.
Proof.
  unfold demux_inv, t2d_pending. intros [I0 I] H. step_cases H s t r;
    (split; [intros Hm; try specialize (I0 Hm); congruence|]);
    rewrite ?pty_writes_app, ?ws_reads_app, ?filter_app;
    try pose proof (I0 eq_refl) as E0;
    repeat match goal with
           | E : t2d _ = _ |- _ => rewrite E in *
           end;
    cbn [pty_writes ws_reads flat_map filter app forwarded] in *;
    repeat match goal with
           | E : is_control _ = _ |- _ => rewrite E
           end;
    cbn [negb]; rewrite ?app_nil_r in *; try assumption; try congruence.
Qed.

Lemma delivered_cons (m : thread * response)
  (sched : list (thread * response)) :
  delivered (m :: sched) = delivered [m] ++ delivered sched.
Proof. unfold delivered. simpl. now rewrite app_nil_r. Qed.

(** One move: the websocket-to-pty loop takes the chunk that is delivered to
    it, and what it has written or is about to write grows by that chunk if
    it is to be forwarded, by nothing otherwise. *)
Lemma forward_step (s : state) (t : thread) (r : response) (s' : state) :
  (main s = M_Start -> t2d s = T_NotStarted) ->
  step s t r = Some s' ->
  (main s' = M_Start -> t2d s' = T_NotStarted) /\
  pty_writes (trace s') ++ t2d_pending s'
    = (pty_writes (trace s) ++ t2d_pending s)
      ++ filter forwarded (delivered [(t, r)]) /\
  ws_reads (trace s') = ws_reads (trace s) ++ delivered [(t, r)].
Proof.
  unfold t2d_pending. intros I0 H. step_cases H s t r;
    (split; [intros Hm; try specialize (I0 Hm); congruence|]);
    rewrite ?pty_writes_app, ?ws_reads_app;
    try pose proof (I0 eq_refl) as E0;
    repeat match goal with
           | E : t2d _ = _ |- _ => rewrite E in *
           end;
    cbn [delivered pty_writes ws_reads flat_map filter app forwarded] in *;
    repeat match goal with
           | E : is_control _ = _ |- _ => rewrite E
           end;
    cbn [negb filter app]; rewrite ?app_nil_r in *;
    try (split; reflexivity); try congruence.
Qed.

Lemma forward_run (sched : list (thread * response)) : forall s s' : state,
  (main s = M_Start -> t2d s = T_NotStarted) ->
  run sched s = Some s' ->
  (main s' = M_Start -> t2d s' = T_NotStarted) /\
  pty_writes (trace s') ++ t2d_pending s'
    = (pty_writes (trace s) ++ t2d_pending s)
      ++ filter forwarded (delivered sched) /\
  ws_reads (trace s') = ws_reads (trace s) ++ delivered sched.
Proof.
  induction sched as [|[t r] sched IH]; intros s s' I0 R; simpl in R.
  - injection R as <-. cbn [delivered flat_map filter].
    now rewrite !app_nil_r.
  - destruct (step s t r) as [s1|] eqn:E; [|discriminate].
    destruct (forward_step _ _ _ _ I0 E) as (I1 & D1 & W1).
    destruct (IH _ _ I1 R) as (I2 & D2 & W2).
    split; [exact I2|].
    rewrite (delivered_cons (t, r) sched), filter_app, D2, D1, W2, W1.
    now rewrite <- !app_assoc.
Qed.

(** *** The terminal handle is released after both loops, unless the
    orchestrator panics *)

Lemma use_after_release_app (a b : list event) :
  use_after_release (a ++ b)
  = use_after_release a
    || (existsb is_pty_close a && existsb is_pty_use b)
    || use_after_release b.
Proof.
  induction a as [|e a IH]; simpl; [reflexivity|].
  rewrite IH, existsb_app.
  destruct (is_pty_close e), (existsb is_pty_use a), (existsb is_pty_use b),
    (use_after_release a), (existsb is_pty_close a), (use_after_release b);
    reflexivity.
Qed.

Lemma no_close_no_use_after_release (tr : list event) :
  existsb is_pty_close tr = false -> use_after_release tr = false.
Proof.
  induction tr as [|e tr IH]; simpl; [reflexivity|].
  intros H. apply orb_false_elim in H as [H1 H2].
  rewrite H1, (IH H2). reflexivity.
Qed.

Lemma release_inv_init : release_inv init.
Proof. unfold release_inv. simpl. auto. Qed.

Ltac injection_some :=
  repeat match goal with
         | H : Some ?f = Some _ |- _ => injection H as H; subst f
         end.

Ltac release_close :=
  repeat match goal with
         | H : handleResize _ _ = Ok _ |- _ =>
             apply handleResize_Ok_inv in H as (? & ? & ? & ->)
         | H : _ /\ _ |- _ => destruct H
         | H : exists _, _ |- _ => destruct H
         | E : d2t _ = _ |- _ => rewrite E in *
         | E : t2d _ = _ |- _ => rewrite E in *
         | E : ptmx _ = _ |- _ => rewrite E in *
         | E : wg _ = _ |- _ => rewrite E in *
         end;
  cbn [d2t_live t2d_live] in *;
  rewrite ?use_after_release_app, ?existsb_app;
  cbn [use_after_release existsb is_pty_close is_pty_use orb andb] in *;
  repeat match goal with
         | H : existsb is_pty_close ?tr = false |- _ =>
             rewrite ?H, ?(no_close_no_use_after_release tr H)
         end;
  rewrite ?orb_false_r, ?andb_false_r;
  try discriminate; try lia;
  repeat split; eauto; try discriminate; try congruence; try lia;
  try (unfold Setsize; cbn [closed]; injection_some; eauto).

Lemma release_inv_step (s : state) (t : thread) (r : response) (s' : state) :
  release_inv s -> step s t r = Some s' -> release_inv s'.
Proof.
  unfold release_inv. intros I H. step_cases H s t r;
    try match goal with
        | E : main s = _ |- _ => rewrite E in I
        end.
  all: try (destruct (main s) eqn:M; try exact I).
  all: release_close.
Qed.

(** In every execution the orchestrator does not leave by a panic, the
    terminal handle is released only when both loops are gone, and nothing
    reads, writes or resizes it afterwards. *)
Lemma release_after_loops (sched : list (thread * response)) (s : state) :
  runTerminalSession sched = Some s ->
  main_panicked s = false ->
  use_after_release (trace s) = false /\
  (ptmx_closed s = true ->
   d2t_live (d2t s) = 0%nat /\ t2d_live (t2d s) = 0%nat).
Proof.
  intros R NP.
  pose proof (run_invariant release_inv release_inv_step _ _ _
                release_inv_init R) as I.
  unfold release_inv, main_panicked, ptmx_closed in *.
  destruct (main s); try discriminate;
    repeat match goal with
           | H : _ /\ _ |- _ => destruct H
           | H : exists _, _ |- _ => destruct H
           | E : ptmx _ = _ |- _ => rewrite E in *
           end;
    cbn [closed] in *;
    (split; [auto using no_close_no_use_after_release
            | intros; try discriminate; auto]).
Qed.

Lemma ws_inv_step (s : state) (t : thread) (r : response) (s' : state) :
  ws_inv s -> step s t r = Some s' -> ws_inv s'.
Proof.
  unfold ws_inv. intros I H. step_cases H s t r;
    try match goal with
        | E : main s = _ |- _ => rewrite E in I
        end;
    auto.
Qed.

Lemma ws_closed_before_wait (sched : list (thread * response)) (s : state) :
  runTerminalSession sched = Some s ->
  main s = M_WgWait \/ main s = M_Deferred \/ main s = M_Returned ->
  ws_closed s = true.
Proof.
  intros R H.
  pose proof (run_invariant ws_inv ws_inv_step _ _ _ (I : ws_inv init) R) as W.
  unfold ws_inv in W. destruct H as [H|[H|H]]; now rewrite H in W.
Qed.

(** *** The channel [done] *)

Lemma count_event_app (f : event -> bool) (a b : list event) :
  count_event f (a ++ b) = (count_event f a + count_event f b)%nat.
Proof. unfold count_event. now rewrite filter_app, length_app. Qed.

Lemma done_inv_step (s : state) (t : thread) (r : response) (s' : state) :
  done_inv s -> step s t r = Some s' -> done_inv s'.
Proof.
  unfold done_inv. intros I H. step_cases H s t r;
    rewrite ?count_event_app;
    repeat match goal with
           | E : done_closed _ = _ |- _ => rewrite E in *
           end;
    cbn [count_event filter is_close_done length]; lia.
Qed.

Lemma done_closed_at_most_once (sched : list (thread * response)) (s : state) :
  runTerminalSession sched = Some s ->
  (count_event is_close_done (trace s) <= 1)%nat.
Proof.
  intros R.
  pose proof (run_invariant done_inv done_inv_step _ _ _
                (eq_refl : done_inv init) R) as D.
  unfold done_inv in D. destruct (done_closed s); lia.
Qed.

(** Whoever closes [done] second panics: the orchestrator unwinds through
    its deferred [ptmx.Close()], the goroutine through its [wg.Done()],
    taking the program down. *)
Lemma second_close_panics (s : state) :
  done_closed s = true ->
  (main s = M_CloseDone ->
   exists s', step s Main RNone = Some s' /\
              main s' = M_Panicked CloseOfClosedChannel) /\
  (t2d s = T_CloseDone ->
   exists s', step s T2D RNone = Some s' /\
              t2d s' = T_Panicked CloseOfClosedChannel /\
              crashed s' = Some CloseOfClosedChannel /\
              wg s' = pred (wg s)).
Proof.
  intros D. split; intros P; unfold step, main_step, t2d_step;
    rewrite P, D; eexists; split; try reflexivity.
  unfold_updates s. auto.
Qed.

(** With [done] still open, a failed [ws.Read] takes its goroutine through
    [close(done)], the interrupt and the return. *)
Lemma t2d_read_error_path (s : state) (eof : bool) :
  t2d s = T_Read -> done_closed s = false ->
  exists s',
    run [(T2D, RRead (ReadErr eof)); (T2D, RNone); (T2D, RNone)] s = Some s' /\
    done_closed s' = true /\ t2d s' = T_Exited /\
    trace s' = trace s ++ (if eof then [] else [EvLog LogWsRead])
                       ++ [EvCloseDone; EvInterrupt].
Proof.
  intros P D. unfold run, step, t2d_step. cbn [read_allowed].
  rewrite P. unfold_updates s. rewrite D. unfold_updates s.
  eexists. split; [reflexivity|]. unfold_updates s.
  rewrite <- !app_assoc. auto.
Qed.

(** No other path of that goroutine closes [done]. *)
Lemma t2d_closes_done_only_after_read_error
  (s : state) (r : response) (s' : state) :
  step s T2D r = Some s' ->
  (done_closed s = false -> done_closed s' = true -> t2d s = T_CloseDone) /\
  (t2d s' = T_CloseDone -> t2d s <> T_CloseDone ->
   t2d s = T_Read /\ exists eof, r = RRead (ReadErr eof)).
Proof.
  intros H.
  assert (exists t, t = T2D /\ step s t r = Some s') as (t & Ht & H')
    by eauto.
  clear H. step_cases H' s t r; try discriminate Ht;
    split; intros; try congruence; eauto;
    repeat match goal with
           | H : context [if ?b then _ else _] |- _ => destruct b
           end;
    try discriminate; try congruence.
Qed.

(** *** How often the double close happens *)





(** The second case happens: the goroutine panics at its [close(done)], its
    deferred [wg.Done()] lets the orchestrator through [wg.Wait()], and
    [runTerminalSession] returns with no write error logged. *)
Lemma return_after_goroutine_panic :
  main (state_after sched_panic_then_return) = M_Returned /\
  t2d (state_after sched_panic_then_return)
    = T_Panicked CloseOfClosedChannel /\
  existsb is_pty_write_log (trace (state_after sched_panic_then_return))
    = false /\
  use_after_release (trace (state_after sched_panic_then_return)) = false.
Proof. split; [|split; [|split]]; vm_compute; reflexivity. Qed.

(** Once the goroutine has panicked it stays so, and no interrupt is asked
    for any more. *)
Lemma gone_inv_step (p : panic) (s : state) (t : thread) (r : response)
  (s' : state) :
  gone_inv p s -> step s t r = Some s' -> gone_inv p s'.
Proof.
  unfold gone_inv. intros (M & T & C & N) H. step_cases H s t r;
    try congruence;
    rewrite ?count_event_app;
    cbn [count_event filter is_interrupt length] in *;
    repeat split; try congruence; try discriminate;
    try (destruct (done_closed s); discriminate);
    try (fold (count_event is_interrupt (trace s)); lia).
Qed.

(** ** The claims about the session *)

(** C3, at failing inputs: [done] is closed by both the orchestrator (line
    96) and the websocket-to-pty goroutine (line 72), and the second
    [close(done)] is a Go panic. When the process exits first the goroutine
    panics, which ends the program; when the transport fails first the
    orchestrator panics. *)
Theorem second_close_of_done_panics :
  option_map crashed (runTerminalSession sched_exit_first)
    = Some (Some CloseOfClosedChannel) /\
  option_map main (runTerminalSession sched_disconnect_first)
    = Some (M_Panicked CloseOfClosedChannel).
Proof. split; vm_compute; reflexivity. Qed.

(** C5: in every execution the chunks handed to [ptmx.Write], together with
    the one the loop is about to write, are exactly the non-empty chunks the
    websocket delivered that do not start with the brace, in order and
    unchanged; so no chunk starting with the brace is ever written, whatever
    the decoder makes of it, and every other non-empty chunk is. *)
Theorem t2d_forwards_only_data (sched : list (thread * response)) (s : state) :
  runTerminalSession sched = Some s ->
  pty_writes (trace s) ++ t2d_pending s
    = filter forwarded (delivered sched) /\
  ws_reads (trace s) = delivered sched /\
  Forall (fun d => is_control d = false /\ d <> []) (pty_writes (trace s)).
Proof.
  intros R.
  destruct (forward_run sched init s (fun _ => eq_refl) R) as (_ & D & W).
  cbn [init trace pty_writes ws_reads t2d_pending t2d flat_map app] in D, W.
  split; [exact D|]. split; [exact W|].
  apply Forall_forall. intros d Hd.
  assert (In d (filter forwarded (delivered sched))) as F
    by (rewrite <- D; apply in_or_app; now left).
  apply filter_In in F as [_ F]. destruct d as [|c d]; [discriminate|].
  split; [|discriminate]. unfold forwarded in F.
  now apply negb_true_iff in F.
Qed.

(** C5, witness: two chunks of keystrokes around a resize frame. The first
    has been written, the second is about to be, the frame is neither. *)
Lemma t2d_forwards_only_data_witness :
  pty_writes (trace (state_after sched_typing)) = [frame "ls"] /\
  t2d_pending (state_after sched_typing) = [frame "pwd"] /\
  pty_writes (trace (state_after sched_typing))
    ++ t2d_pending (state_after sched_typing)
    = [frame "ls"; frame "pwd"] /\
  ws_reads (trace (state_after sched_typing))
    = [frame "ls"; frame "{'cols':100,'rows':40}"; frame "pwd"] /\
  Forall (fun d => is_control d = false /\ d <> [])
         (pty_writes (trace (state_after sched_typing))).
Proof.
  split; [vm_compute; reflexivity|]. split; [vm_compute; reflexivity|].
  assert (runTerminalSession sched_typing = Some (state_after sched_typing))
    as R by (vm_compute; reflexivity).
  destruct (t2d_forwards_only_data sched_typing (state_after sched_typing) R)
    as (D & W & F).
  split; [rewrite D; vm_compute; reflexivity|].
  split; [rewrite W; vm_compute; reflexivity|exact F].
Defined.

(** C6, at a failing input: the transport fails while the pty-to-websocket
    goroutine is in [ptmx.Read]; the process is interrupted and exits; the
    orchestrator's [close(done)] panics and its deferred [ptmx.Close()] runs
    before any [wg.Wait()]. The handle is released with that loop still
    running, and the loop's read comes after the release. *)
Theorem handle_released_under_reader :
  (ptmx_closed (state_after sched_release_under_reader) = true /\
   d2t (state_after sched_release_under_reader) = D_Read /\
   main (state_after sched_release_under_reader)
     = M_Panicked CloseOfClosedChannel) /\
  option_map (fun s => use_after_release (trace s))
             (runTerminalSession sched_read_after_release) = Some true.
Proof. split; [split; [|split]|]; vm_compute; reflexivity. Qed.

(** C7, at a failing input: the process exits first, the orchestrator closes
    [done] and the websocket, and the [ws.Read] of the goroutine fails. Its
    [close(done)] panics: the goroutine unwinds through its deferred
    [wg.Done()] and is gone, and no interrupt is requested, neither then nor
    in whatever the other threads still do before the program has ended. *)
Theorem read_error_after_shutdown_panics :
  runTerminalSession sched_exit_first
    = Some (state_after sched_exit_first) /\
  crashed (state_after sched_exit_first) = Some CloseOfClosedChannel /\
  t2d (state_after sched_exit_first) = T_Panicked CloseOfClosedChannel /\
  count_event is_interrupt (trace (state_after sched_exit_first)) = 0%nat /\
  forall (sched : list (thread * response)) (s' : state),
    run sched (state_after sched_exit_first) = Some s' ->
    t2d s' = T_Panicked CloseOfClosedChannel /\
    count_event is_interrupt (trace s') = 0%nat.
Proof.
  split; [vm_compute; reflexivity|]. split; [vm_compute; reflexivity|].
  split; [vm_compute; reflexivity|]. split; [vm_compute; reflexivity|].
  intros sched s' R.
  assert (gone_inv CloseOfClosedChannel (state_after sched_exit_first)) as G.
  { split; [vm_compute; discriminate|].
    split; [|split]; vm_compute; reflexivity. }
  destruct (run_invariant _ (gone_inv_step CloseOfClosedChannel) _ _ _ G R)
    as (_ & T & _ & N).
  auto.
Qed.


(** C10: when [ws.Write] fails in the pty-to-websocket loop, the loop logs
    and returns; [done], the process (no interrupt), the terminal, the
    websocket and the other two threads are as they were. *)
Theorem d2t_write_error_exits_quietly (s : state) (data : list byte) :
  d2t s = D_Write data ->
  exists s',
    step s D2T (RWrite false) = Some s' /\
    d2t s' = D_Exited /\
    trace s' = trace s ++ [EvWsWrite data; EvLog LogWsWrite] /\
    done_closed s' = done_closed s /\
    count_event is_close_done (trace s')
      = count_event is_close_done (trace s) /\
    count_event is_interrupt (trace s')
      = count_event is_interrupt (trace s) /\
    main s' = main s /\ t2d s' = t2d s /\
    ptmx s' = ptmx s /\ ws_closed s' = ws_closed s.
Proof.
  intros P. unfold step, d2t_step. rewrite P.
  unfold write_allowed. rewrite andb_false_r. cbn [negb].
  eexists. split; [reflexivity|]. unfold_updates s.
  rewrite !count_event_app. cbn [count_event filter length is_close_done
                                 is_interrupt].
  repeat split; lia.
Qed.

(** C10, witness: the write of the shell's first output fails. *)
Lemma d2t_write_error_exits_quietly_witness :
  exists s',
    step (state_after sched_output) D2T (RWrite false) = Some s' /\
    d2t s' = D_Exited /\
    trace s' = trace (state_after sched_output)
               ++ [EvWsWrite (frame "out"); EvLog LogWsWrite] /\
    done_closed s' = done_closed (state_after sched_output) /\
    count_event is_close_done (trace s')
      = count_event is_close_done (trace (state_after sched_output)) /\
    count_event is_interrupt (trace s')
      = count_event is_interrupt (trace (state_after sched_output)) /\
    main s' = main (state_after sched_output) /\
    t2d s' = t2d (state_after sched_output) /\
    ptmx s' = ptmx (state_after sched_output) /\
    ws_closed s' = ws_closed (state_after sched_output).
Proof.
  apply (d2t_write_error_exits_quietly (state_after sched_output)
           (frame "out")); vm_compute; reflexivity.
Defined.

(** ** More properties of terminal.go *)

Lemma scan_loop_split (a : nat) : forall (b : nat) (str : list byte) (i : nat)
  (g : Z * Z),
  scan_loop (a + b) str i g
  = (g1 <- scan_loop a str i g ;; scan_loop b str (i + a) g1).
Proof.
  induction a as [|a IH]; intros b str i g; simpl.
  - now rewrite Nat.add_0_r.
  - destruct (scan_body str i g) as [g'| |]; simpl; try reflexivity.
    rewrite IH. now replace (S i + a)%nat with (i + S a)%nat by lia.
Qed.

Lemma parse_key_no_match (key str : list byte) (i : nat) (cur : Z) :
  (i + 6 <= length str)%nat -> key_at key str i = false ->
  parse_key key str i cur = Ok cur.
Proof.
  intros H K. unfold parse_key, key_at in *.
  rewrite substr_in_range in * by exact H. cbn [bind]. now rewrite K.
Qed.

Lemma parse_key_match (key str : list byte) (i : nat) (cur num : Z) :
  key_at key str i = true -> field_num str i = Ok num ->
  parse_key key str i cur = Ok (pick cur num).
Proof.
  intros K F. unfold parse_key, key_at in *.
  destruct (substr str i (i + 6)) as [s| |]; try discriminate.
  cbn [bind]. rewrite K, F. reflexivity.
Qed.

Lemma scan_loop_no_match (n : nat) : forall (str : list byte) (i : nat)
  (g : Z * Z),
  (i + n + 5 <= length str)%nat ->
  (forall k, (i <= k < i + n)%nat ->
             key_at key_cols str k = false /\ key_at key_rows str k = false) ->
  scan_loop n str i g = Ok g.
Proof.
  induction n as [|n IH]; intros str i g Hlen H; simpl; [reflexivity|].
  destruct (H i) as [Hc Hr]; [lia|]. unfold scan_body.
  assert (i + 6 <= length str)%nat as L by lia.
  rewrite (parse_key_no_match _ _ _ _ L Hc). cbn [bind].
  rewrite (parse_key_no_match _ _ _ _ L Hr). cbn [bind].
  rewrite IH; [now destruct g|lia|]. intros k Hk. apply H. lia.
Qed.

Lemma key_at_bytes (key str : list byte) (i : nat) :
  key_at key str i = true ->
  forall k, (k < 6)%nat -> nth_error str (i + k) = nth_error key k.
Proof.
  unfold key_at, substr.
  destruct ((i <=? i + 6)%nat && (i + 6 <=? length str)%nat) eqn:B;
    [|discriminate].
  unfold bytes_eqb. destruct (list_eq_dec _ _ key) as [E|]; [|discriminate].
  intros _ k Hk. rewrite <- E.
  replace (i + 6 - i)%nat with 6%nat by lia.
  rewrite nth_error_firstn.
  replace (k <? 6)%nat with true by (symmetry; apply Nat.ltb_lt; lia).
  now rewrite nth_error_skipn.
Qed.

Lemma is_digit_not_sep (c : byte) : is_digit c = true -> is_sep c = false.
Proof. destruct c; intros H; try reflexivity; discriminate H. Qed.

Lemma is_digit_not_quote (c : byte) : is_digit c = true -> c <> x22.
Proof. intros H ->. discriminate H. Qed.

Lemma after_prefix_not_sep (pre ds rest : list byte) (c0 : byte) :
  forallb is_digit ds = true -> is_sep c0 = false ->
  exists c, nth_error (pre ++ ds ++ c0 :: rest) (length pre) = Some c
            /\ is_sep c = false.
Proof.
  intros D S. destruct ds as [|d ds]; cbn [app].
  - rewrite nth_error_middle. eauto.
  - rewrite nth_error_middle. exists d. split; [reflexivity|].
    apply is_digit_not_sep. cbn [forallb] in D.
    now apply andb_prop in D as [? _].
Qed.

Section ResizeFrame.

Variables dc dr : list byte.
Hypothesis Hdc : forallb is_digit dc = true.
Hypothesis Hdr : forallb is_digit dr = true.

Let A : list byte := [x7b; x22; x63; x6f; x6c; x73; x22; x3a].
Let B : list byte := [x2c; x22; x72; x6f; x77; x73; x22; x3a].
Let n : nat := length dc.
Let m : nat := length dr.
Let str : list byte := resize_frame dc dr.

Lemma resize_frame_shape : str = A ++ dc ++ B ++ dr ++ [x7d].
Proof. reflexivity. Qed.

Lemma resize_frame_length : length str = (17 + n + m)%nat.
Proof.
  rewrite resize_frame_shape, !length_app. subst n m. simpl. lia.
Qed.

Lemma resize_frame_in_A (i : nat) :
  (i < 8)%nat -> nth_error str i = nth_error A i.
Proof.
  intros H. rewrite resize_frame_shape. apply nth_error_app1. simpl. lia.
Qed.

Lemma resize_frame_in_dc (i : nat) :
  (8 <= i < 8 + n)%nat -> nth_error str i = nth_error dc (i - 8).
Proof.
  intros H. rewrite resize_frame_shape.
  rewrite nth_error_app2 by (cbn [length A B]; lia).
  rewrite nth_error_app1 by (subst n; cbn [length A B]; lia). reflexivity.
Qed.

Lemma resize_frame_in_B (i : nat) :
  (8 + n <= i < 16 + n)%nat -> nth_error str i = nth_error B (i - 8 - n).
Proof.
  intros H. rewrite resize_frame_shape.
  rewrite nth_error_app2 by (cbn [length A B]; lia).
  rewrite nth_error_app2 by (subst n; cbn [length A B]; lia).
  rewrite nth_error_app1 by (subst n; cbn [length A B]; lia). reflexivity.
Qed.

Lemma resize_frame_in_dr (i : nat) :
  (16 + n <= i < 16 + n + m)%nat ->
  nth_error str i = nth_error dr (i - 8 - n - 8).
Proof.
  intros H. rewrite resize_frame_shape.
  rewrite nth_error_app2 by (cbn [length A B]; lia).
  rewrite nth_error_app2 by (subst n; cbn [length A B]; lia).
  rewrite nth_error_app2 by (subst n; cbn [length A B]; lia).
  rewrite nth_error_app1 by (subst n m; cbn [length A B]; lia). reflexivity.
Qed.

Lemma resize_frame_last :
  nth_error str (16 + n + m) = Some x7d.
Proof.
  rewrite resize_frame_shape.
  rewrite nth_error_app2 by (cbn [length A B]; lia).
  rewrite nth_error_app2 by (subst n; cbn [length A B]; lia).
  rewrite nth_error_app2 by (subst n; cbn [length A B]; lia).
  rewrite nth_error_app2 by (subst n m; cbn [length A B]; lia).
  replace (16 + n + m - length A - length dc - length B - length dr)%nat
    with 0%nat by (subst n m; cbn [length A B]; lia).
  reflexivity.
Qed.

Lemma digit_run_no_quote (ds : list byte) (k : nat) :
  forallb is_digit ds = true -> nth_error ds k <> Some x22.
Proof.
  intros H E. apply nth_error_In in E.
  rewrite forallb_forall in H. specialize (H _ E). discriminate H.
Qed.

(** Where the frame has a double quote. *)
Lemma resize_frame_quotes (i : nat) :
  nth_error str i = Some x22 ->
  i = 1%nat \/ i = 6%nat \/ i = (9 + n)%nat \/ i = (14 + n)%nat.
Proof.
  intros H.
  destruct (lt_dec i 8) as [L1|L1].
  { rewrite resize_frame_in_A in H by exact L1.
    do 8 (destruct i as [|i]; [simpl in H; try discriminate; auto|]). lia. }
  destruct (lt_dec i (8 + n)) as [L2|L2].
  { rewrite resize_frame_in_dc in H by lia.
    now apply digit_run_no_quote in H. }
  destruct (lt_dec i (16 + n)) as [L3|L3].
  { rewrite resize_frame_in_B in H by lia.
    remember (i - 8 - n)%nat as k eqn:K.
    do 8 (destruct k as [|k]; [simpl in H; try discriminate; lia|]). lia. }
  destruct (lt_dec i (16 + n + m)) as [L4|L4].
  { rewrite resize_frame_in_dr in H by lia.
    now apply digit_run_no_quote in H. }
  destruct (Nat.eq_dec i (16 + n + m)) as [->|L5].
  { rewrite resize_frame_last in H. discriminate. }
  assert (nth_error str i = None) as E
    by (apply nth_error_None; rewrite resize_frame_length; lia).
  congruence.
Qed.

Lemma resize_frame_key_cols (i : nat) :
  key_at key_cols str i = true <-> i = 1%nat.
Proof.
  split.
  - intros K. pose proof (key_at_bytes _ _ _ K) as Bts.
    pose proof (Bts 0%nat ltac:(lia)) as B0.
    pose proof (Bts 1%nat ltac:(lia)) as B1.
    rewrite Nat.add_0_r in B0. simpl in B0, B1.
    destruct (resize_frame_quotes i B0) as [-> | [-> | [-> | ->]]]; auto.
    + rewrite resize_frame_in_A in B1 by lia. discriminate.
    + rewrite resize_frame_in_B in B1 by lia.
      replace (9 + n + 1 - 8 - n)%nat with 2%nat in B1 by lia. discriminate.
    + rewrite resize_frame_in_B in B1 by lia.
      replace (14 + n + 1 - 8 - n)%nat with 7%nat in B1 by lia. discriminate.
  - intros ->. reflexivity.
Qed.

Lemma resize_frame_key_rows (i : nat) :
  key_at key_rows str i = true <-> i = (9 + n)%nat.
Proof.
  split.
  - intros K. pose proof (key_at_bytes _ _ _ K) as Bts.
    pose proof (Bts 0%nat ltac:(lia)) as B0.
    pose proof (Bts 1%nat ltac:(lia)) as B1.
    rewrite Nat.add_0_r in B0. simpl in B0, B1.
    destruct (resize_frame_quotes i B0) as [-> | [-> | [-> | ->]]]; auto.
    + rewrite resize_frame_in_A in B1 by lia. discriminate.
    + rewrite resize_frame_in_A in B1 by lia. discriminate.
    + rewrite resize_frame_in_B in B1 by lia.
      replace (14 + n + 1 - 8 - n)%nat with 7%nat in B1 by lia. discriminate.
  - intros ->. unfold key_at.
    rewrite substr_in_range by (rewrite resize_frame_length; lia).
    rewrite resize_frame_shape.
    replace (A ++ dc ++ B ++ dr ++ [x7d])
      with ((A ++ dc ++ [x2c]) ++ key_rows ++ x3a :: dr ++ [x7d])
      by (cbn [A B key_rows app]; rewrite <- !app_assoc; reflexivity).
    assert (length (A ++ dc ++ [x2c]) = (9 + n)%nat) as L
      by (rewrite !length_app; subst n; cbn [length A]; lia).
    rewrite <- L, skipn_app, Nat.sub_diag, skipn_all. reflexivity.
Qed.

Lemma skip_sep_stops (fuel : nat) (s : list byte) (j : nat) (c : byte) :
  nth_error s j = Some c -> is_sep c = false -> skip_sep fuel s j = Ok j.
Proof.
  intros E S. unfold is_sep in S.
  destruct fuel; simpl; rewrite sep_cond_spec, E; cbn [bind];
    now rewrite S.
Qed.

Lemma resize_frame_cols_num : field_num str 1 = Ok (decimal dc mod 2 ^ 16).
Proof.
  unfold field_num. cbn [Nat.add].
  assert (exists c, nth_error str 8 = Some c /\ is_sep c = false)
    as (c & E & S).
  { rewrite resize_frame_shape. change 8%nat with (length A).
    apply (after_prefix_not_sep A dc _ x2c Hdc eq_refl). }
  rewrite (skip_sep_stops _ _ _ _ E S). cbn [bind].
  rewrite resize_frame_shape. change 8%nat with (length A).
  rewrite scan_num_run; try assumption; try reflexivity; lia.
Qed.

Lemma resize_frame_rows_num :
  field_num str (9 + n) = Ok (decimal dr mod 2 ^ 16).
Proof.
  unfold field_num.
  assert (str = (A ++ dc ++ B) ++ dr ++ [x7d]) as Sh
    by (rewrite resize_frame_shape, <- !app_assoc; reflexivity).
  assert (9 + n + 7 = length (A ++ dc ++ B))%nat as L
    by (rewrite !length_app; subst n; cbn [length A B]; lia).
  rewrite L.
  assert (exists c, nth_error str (length (A ++ dc ++ B)) = Some c
                    /\ is_sep c = false) as (c & E & S).
  { rewrite Sh.
    apply (after_prefix_not_sep (A ++ dc ++ B) dr [] x7d Hdr eq_refl). }
  rewrite (skip_sep_stops _ _ _ _ E S). cbn [bind].
  rewrite Sh.
  rewrite scan_num_run; try assumption; try reflexivity; lia.
Qed.

Lemma resize_frame_decode :
  decode str = Ok (pick 80 (decimal dc mod 2 ^ 16),
                   pick 24 (decimal dr mod 2 ^ 16)).
Proof.
  unfold decode.
  replace (10 <? length str)%nat with true
    by (symmetry; apply Nat.ltb_lt; rewrite resize_frame_length; lia).
  replace (length str - 5)%nat
    with (1 + (1 + ((7 + n) + (1 + (2 + m)))))%nat
    by (rewrite resize_frame_length; lia).
  pose proof resize_frame_length as Len.
  assert (forall k, k <> 1%nat -> k <> (9 + n)%nat ->
                    key_at key_cols str k = false
                    /\ key_at key_rows str k = false) as NoKey.
  { intros k K1 K2. split; apply not_true_is_false; intros K.
    - now apply resize_frame_key_cols in K.
    - now apply resize_frame_key_rows in K. }
  assert (1 + 6 <= length str)%nat as L1 by lia.
  assert (9 + n + 6 <= length str)%nat as L2 by lia.
  assert (key_at key_rows str 1 = false) as R1.
  { apply not_true_is_false. intros K.
    apply resize_frame_key_rows in K. lia. }
  assert (key_at key_cols str (9 + n) = false) as C2.
  { apply not_true_is_false. intros K.
    apply resize_frame_key_cols in K. lia. }
  assert (scan_body str 1 (80, 24)
          = Ok (pick 80 (decimal dc mod 2 ^ 16), 24)) as S1.
  { unfold scan_body. cbn [fst snd].
    rewrite (parse_key_match _ _ _ _ _
               (proj2 (resize_frame_key_cols 1) eq_refl)
               resize_frame_cols_num).
    cbn [bind]. now rewrite (parse_key_no_match _ _ _ _ L1 R1). }
  assert (forall c, scan_body str (9 + n) (c, 24)
                    = Ok (c, pick 24 (decimal dr mod 2 ^ 16))) as S2.
  { intros c. unfold scan_body. cbn [fst snd].
    rewrite (parse_key_no_match _ _ _ _ L2 C2). cbn [bind].
    now rewrite (parse_key_match _ _ _ _ _
                   (proj2 (resize_frame_key_rows (9 + n)) eq_refl)
                   resize_frame_rows_num). }
  rewrite scan_loop_split.
  rewrite scan_loop_no_match by (try lia; intros k Hk; apply NoKey; lia).
  cbn [bind]. rewrite scan_loop_split.
  change (scan_loop 1 str (0 + 1) (80, 24))
    with (g' <- scan_body str 1 (80, 24) ;; Ok g').
  rewrite S1. cbn [bind]. rewrite scan_loop_split.
  rewrite scan_loop_no_match by (try lia; intros k Hk; apply NoKey; lia).
  cbn [bind]. rewrite scan_loop_split.
  replace (0 + 1 + 1 + (7 + n))%nat with (9 + n)%nat by lia.
  change (scan_loop 1 str (9 + n) ?g)
    with (g' <- scan_body str (9 + n) g ;; Ok g').
  rewrite S2. cbn [bind].
  rewrite scan_loop_no_match by (try lia; intros k Hk; apply NoKey; lia).
  reflexivity.
Qed.

End ResizeFrame.

(** X1: A frame of the shape the client sends, with the two numbers written in
    decimal digits, sets the terminal to those numbers (read modulo 2^16),
    or to 80 columns / 24 rows where the number read is 0. *)
Theorem handleResize_wellformed_frame (ptmx : File) (dc dr : list byte) :
  forallb is_digit dc = true -> forallb is_digit dr = true ->
  handleResize ptmx (resize_frame dc dr)
  = Ok (Setsize ptmx (mkWinsize (pick 24 (decimal dr mod 2 ^ 16))
                                (pick 80 (decimal dc mod 2 ^ 16)))).
Proof.
  intros Hdc Hdr. unfold handleResize.
  now rewrite (resize_frame_decode dc dr Hdc Hdr).
Qed.

(** X1, witness. *)
Lemma handleResize_wellformed_frame_witness :
  handleResize ptmx_40x100 (resize_frame (frame "120") (frame "50"))
  = Ok (Setsize ptmx_40x100
          (mkWinsize (pick 24 (decimal (frame "50") mod 2 ^ 16))
                     (pick 80 (decimal (frame "120") mod 2 ^ 16)))).
Proof.
  exact (handleResize_wellformed_frame ptmx_40x100 (frame "120") (frame "50")
           eq_refl eq_refl).
Defined.

(** X2: [handleResize] ends in a Go panic (index out of range) exactly on the
    frames of more than 10 bytes in which, at an index the scan visits, a
    key literal is followed from seven bytes on by nothing but spaces and
    colons up to the end; on every other input it returns, having set some
    size. *)
Theorem handleResize_faults_exactly (ptmx : File) (data : list byte) :
  if faulty data
  then handleResize ptmx data = Panic IndexOutOfRange
  else exists ws, handleResize ptmx data = Ok (Setsize ptmx ws).
Proof. exact (handleResize_faulty_iff ptmx data). Qed.

Lemma scan_num_range (fuel : nat) : forall (str : list byte) (j : nat)
  (num v : Z),
  0 <= num < 65536 -> scan_num fuel str j num = Ok v -> 0 <= v < 65536.
Proof.
  induction fuel as [|fuel IH]; intros str j num v R; simpl;
    destruct (digit_cond str j) as [[|]| |]; cbn [bind];
    try discriminate; try (intros H; injection H as <-; exact R);
    destruct (index str j) as [c| |]; cbn [bind]; try discriminate.
  apply IH. unfold uint16. apply Z.mod_pos_bound. lia.
Qed.

Lemma field_num_range (str : list byte) (i : nat) (v : Z) :
  field_num str i = Ok v -> 0 <= v < 65536.
Proof.
  unfold field_num. destruct (skip_sep _ _ _) as [j| |]; cbn [bind];
    try discriminate.
  apply scan_num_range. lia.
Qed.

Lemma parse_key_range (key str : list byte) (i : nat) (cur v : Z) :
  1 <= cur <= 65535 -> parse_key key str i cur = Ok v -> 1 <= v <= 65535.
Proof.
  intros R. unfold parse_key.
  destruct (substr _ _ _) as [s| |]; cbn [bind]; try discriminate.
  destruct (bytes_eqb s key); [|intros H; injection H as <-; exact R].
  destruct (field_num str i) as [num| |] eqn:F; cbn [bind]; try discriminate.
  apply field_num_range in F.
  destruct (num >? 0) eqn:P; intros H; injection H as <-; [|exact R].
  apply Z.gtb_lt in P. lia.
Qed.

Lemma scan_loop_range (n : nat) : forall (str : list byte) (i : nat)
  (g g' : Z * Z),
  1 <= fst g <= 65535 -> 1 <= snd g <= 65535 ->
  scan_loop n str i g = Ok g' ->
  1 <= fst g' <= 65535 /\ 1 <= snd g' <= 65535.
Proof.
  induction n as [|n IH]; intros str i g g' Rc Rr; simpl.
  - intros H; injection H as <-. auto.
  - unfold scan_body.
    destruct (parse_key key_cols str i (fst g)) as [c| |] eqn:Ec;
      cbn [bind]; try discriminate.
    destruct (parse_key key_rows str i (snd g)) as [r| |] eqn:Er;
      cbn [bind]; try discriminate.
    apply IH; cbn [fst snd];
      eauto using parse_key_range.
Qed.

Lemma handleResize_size_ok (ptmx ptmx' : File) (data : list byte) :
  handleResize ptmx data = Ok ptmx' -> size_ok (size ptmx').
Proof.
  intros H. apply handleResize_Ok_inv in H as (cols & rows & D & ->).
  unfold decode in D. unfold size_ok. cbn [Setsize size Rows Cols].
  destruct (10 <? length data)%nat.
  - apply scan_loop_range in D; cbn [fst snd] in *; try lia.
  - injection D as <- <-. lia.
Qed.

Lemma size_inv_step (s : state) (t : thread) (r : response) (s' : state) :
  size_inv s -> step s t r = Some s' -> size_inv s'.
Proof.
  unfold size_inv. intros I H. step_cases H s t r;
    repeat match goal with
           | E : ptmx s = _ |- _ => rewrite E in *
           end;
    try exact I; try (destruct (ptmx s); exact I);
    try (unfold size_ok; cbn; lia);
    eauto using handleResize_size_ok.
Qed.

(** X3: In every execution the terminal has a size of at least 1 by 1 and at
    most 65535 by 65535. *)
Theorem terminal_size_positive
  (sched : list (thread * response)) (s : state) (f : File) :
  runTerminalSession sched = Some s -> ptmx s = Some f ->
  1 <= Rows (size f) <= 65535 /\ 1 <= Cols (size f) <= 65535.
Proof.
  intros R P.
  pose proof (run_invariant size_inv size_inv_step _ _ _
                (I : size_inv init) R) as S.
  unfold size_inv in S. now rewrite P in S.
Qed.

Lemma interrupt_inv_init : interrupt_inv init.
Proof. split; [reflexivity|reflexivity]. Qed.

Lemma interrupt_inv_step (s : state) (t : thread) (r : response) (s' : state) :
  interrupt_inv s -> step s t r = Some s' -> interrupt_inv s'.
Proof.
  unfold interrupt_inv. intros [I0 I] H. step_cases H s t r;
    try pose proof (I0 eq_refl) as E0;
    repeat match goal with
           | E : t2d s = _ |- _ => rewrite E in *
           | E : main s = _ |- _ => rewrite E in *
           end;
    rewrite ?count_event_app;
    cbn [count_event filter is_interrupt length] in *;
    (split; [intros Hm; try discriminate Hm; auto;
             try (specialize (I0 Hm); discriminate I0)|]);
    try (destruct (t2d s); intuition lia; fail); intuition lia.
Qed.

(** X6: In every execution the process is sent at most one interrupt. *)
Theorem interrupt_at_most_once
  (sched : list (thread * response)) (s : state) :
  runTerminalSession sched = Some s ->
  (count_event is_interrupt (trace s) <= 1)%nat.
Proof.
  intros R.
  pose proof (run_invariant interrupt_inv interrupt_inv_step _ _ _
                interrupt_inv_init R) as [_ J].
  destruct (t2d s); lia.
Qed.




Lemma d2t_bounded_step (s : state) (t : thread) (r : response) (s' : state) :
  done_closed s = true -> main s <> M_Start ->
  step s t r = Some s' ->
  done_closed s' = true /\ main s' <> M_Start /\
  (d2t_rank (d2t s') + (if is_d2t (t, r) then 1 else 0)
   <= d2t_rank (d2t s))%nat.
Proof.
  intros D M H. step_cases H s t r;
    repeat match goal with
           | E : d2t s = _ |- _ => rewrite E in *
           | E : done_closed s = _ |- _ => rewrite E in *
           end;
    cbn [d2t_rank is_d2t fst] in *;
    try discriminate; try congruence;
    repeat split; try discriminate; try assumption; try lia.
Qed.

(** X9: Once [done] is closed, the pty-to-websocket loop makes at most three
    more moves (the end of a read under way, one write, one [select]),
    however the threads are scheduled. *)
Theorem d2t_stops_after_done
  (sched : list (thread * response)) : forall s s' : state,
  done_closed s = true -> main s <> M_Start ->
  run sched s = Some s' ->
  (length (filter is_d2t sched) <= 3)%nat.
Proof.
  assert (forall s s', done_closed s = true -> main s <> M_Start ->
            run sched s = Some s' ->
            (length (filter is_d2t sched) <= d2t_rank (d2t s))%nat) as G.
  { induction sched as [|[t r] sched IH]; intros s s' D M R; simpl in *;
      [lia|].
    destruct (step s t r) as [s1|] eqn:E; [|discriminate].
    destruct (d2t_bounded_step _ _ _ _ D M E) as (D1 & M1 & L).
    specialize (IH _ _ D1 M1 R).
    destruct (is_d2t (t, r)); simpl; lia. }
  intros s s' D M R. specialize (G _ _ D M R).
  destruct (d2t s); simpl in G; lia.
Qed.

(** X3, witness. *)
Lemma terminal_size_positive_witness :
  1 <= Rows (size (mkFile (mkWinsize 40 100) false)) <= 65535 /\
  1 <= Cols (size (mkFile (mkWinsize 40 100) false)) <= 65535.
Proof.
  apply (terminal_size_positive sched_typing (state_after sched_typing));
    vm_compute; reflexivity.
Defined.

(** X6, witness. *)
Lemma interrupt_at_most_once_witness :
  (count_event is_interrupt (trace (state_after sched_disconnect_first))
   <= 1)%nat.
Proof.
  apply (interrupt_at_most_once sched_disconnect_first).
  vm_compute. reflexivity.
Defined.


(** X9, witness. *)
Lemma d2t_stops_after_done_witness :
  (length (filter is_d2t [(D2T, RNone); (Main, RNone)]) <= 3)%nat.
Proof.
  apply (d2t_stops_after_done [(D2T, RNone); (Main, RNone)]
           (state_after [(Main, RStart None); (Main, RWait false);
                         (Main, RNone)])
           (state_after [(Main, RStart None); (Main, RWait false);
                         (Main, RNone); (D2T, RNone); (Main, RNone)]));
    [vm_compute; reflexivity|vm_compute; discriminate
    |vm_compute; reflexivity].
Defined.

(** X5: In every execution at most one [close(done)] goes through. *)
Theorem done_closes_at_most_once
  (sched : list (thread * response)) (s : state) :
  runTerminalSession sched = Some s ->
  (count_event is_close_done (trace s) <= 1)%nat.
Proof. exact (done_closed_at_most_once sched s). Qed.

(** X5, witness. *)
Lemma done_closes_at_most_once_witness :
  (count_event is_close_done (trace (state_after sched_exit_first)) <= 1)%nat.
Proof.
  apply (done_closes_at_most_once sched_exit_first).
  vm_compute. reflexivity.
Defined.

(** X7: In every execution in which the orchestrator does not leave by a panic:
    nothing reads, writes or resizes the terminal after [ptmx.Close()], the
    terminal is closed only when both goroutines have ended (returned, or
    gone in a panic with the deferred [wg.Done()] run), and from [wg.Wait()]
    on the websocket is closed. *)
Theorem shutdown_order_without_panic
  (sched : list (thread * response)) (s : state) :
  runTerminalSession sched = Some s ->
  main_panicked s = false ->
  use_after_release (trace s) = false /\
  (ptmx_closed s = true ->
   d2t_live (d2t s) = 0%nat /\ t2d_live (t2d s) = 0%nat) /\
  (main s = M_WgWait \/ main s = M_Deferred \/ main s = M_Returned ->
   ws_closed s = true).
Proof.
  intros R NP. destruct (release_after_loops sched s R NP) as [U C].
  split; [exact U|]. split; [exact C|]. exact (ws_closed_before_wait sched s R).
Qed.

(** X7, witness: the orchestrator returns after the websocket-to-pty
    goroutine has panicked at its [close(done)]. *)
Lemma shutdown_order_without_panic_witness :
  use_after_release (trace (state_after sched_panic_then_return)) = false /\
  (ptmx_closed (state_after sched_panic_then_return) = true ->
   d2t_live (d2t (state_after sched_panic_then_return)) = 0%nat /\
   t2d_live (t2d (state_after sched_panic_then_return)) = 0%nat) /\
  (main (state_after sched_panic_then_return) = M_WgWait \/
   main (state_after sched_panic_then_return) = M_Deferred \/
   main (state_after sched_panic_then_return) = M_Returned ->
   ws_closed (state_after sched_panic_then_return) = true).
Proof.
  apply (shutdown_order_without_panic sched_panic_then_return
           (state_after sched_panic_then_return));
    vm_compute; reflexivity.
Defined.



(** ** Properties of intToStr *)

Lemma two_digit_ok_all :
  forallb (fun k => two_digit_ok (Z.of_nat k)) (seq 0 100) = true.
Proof. vm_compute. reflexivity. Qed.

(** X10: From 0 to 99 [intToStr] gives the decimal numeral without a leading
    zero: one digit below 10, two from 10 on, and reading the digits back
    gives the number. *)
Theorem intToStr_two_digits (n : Z) :
  0 <= n <= 99 ->
  forallb is_digit (intToStr n) = true /\
  decimal (intToStr n) = n /\
  length (intToStr n) = if n <? 10 then 1%nat else 2%nat.
Proof.
  intros R. pose proof two_digit_ok_all as A.
  rewrite forallb_forall in A.
  specialize (A (Z.to_nat n)). rewrite Z2Nat.id in A by lia.
  assert (two_digit_ok n = true) as T by (apply A, in_seq; lia).
  unfold two_digit_ok in T.
  apply andb_prop in T as [T T3]. apply andb_prop in T as [T1 T2].
  apply Z.eqb_eq in T2. apply Nat.eqb_eq in T3. auto.
Qed.

Lemma code_byte_of (x : Z) : 0 <= x < 256 -> code (byte_of x) = x.
Proof.
  intros R. unfold code, byte_of. rewrite Z.mod_small by lia.
  destruct (Byte.of_N (Z.to_N x)) as [b|] eqn:E.
  - apply Byte.to_of_N in E. rewrite E. lia.
  - apply Byte.of_N_None_iff in E. lia.
Qed.

Lemma lor_lead_range (lead x : Z) :
  lead = 192 \/ lead = 224 \/ lead = 240 ->
  0 <= x < 256 - lead -> lead <= Z.lor lead x < 256.
Proof.
  intros L R.
  assert (forallb (fun l =>
            forallb (fun k => (l <=? Z.lor l (Z.of_nat k))
                              && (Z.lor l (Z.of_nat k) <? 256))
                    (seq 0 (Z.to_nat (256 - l))))
            [192; 224; 240] = true) as A by (vm_compute; reflexivity).
  rewrite forallb_forall in A.
  assert (In lead [192; 224; 240]) as I
    by (destruct L as [-> | [-> | ->]]; simpl; auto).
  specialize (A _ I). rewrite forallb_forall in A.
  specialize (A (Z.to_nat x)). rewrite Z2Nat.id in A by lia.
  assert (In (Z.to_nat x) (seq 0 (Z.to_nat (256 - lead)))) as J
    by (apply in_seq; lia).
  apply A in J. apply andb_prop in J as [J1 J2].
  apply Z.leb_le in J1. apply Z.ltb_lt in J2. lia.
Qed.

Lemma is_digit_code (c : byte) :
  is_digit c = true <-> 48 <= code c <= 57.
Proof.
  unfold is_digit. change (code ch_zero) with 48. change (code ch_nine) with 57.
  rewrite andb_true_iff, !Z.leb_le. tauto.
Qed.

Lemma not_digit_byte_of (x : Z) :
  0 <= x < 256 -> ~ (48 <= x <= 57) -> is_digit (byte_of x) = false.
Proof.
  intros R N. apply not_true_is_false. intros D.
  apply is_digit_code in D. rewrite code_byte_of in D by exact R. lia.
Qed.

(** The first byte of [string(r)] is an ASCII digit only for the runes '0'
    to '9'. *)
Lemma string_of_rune_head (r : Z) :
  ~ (48 <= r <= 57) -> head_not_digit (string_of_rune r) = true.
Proof.
  intros N. unfold string_of_rune.
  destruct ((r <? 0) || (1114111 <? r) || ((55296 <=? r) && (r <=? 57343)))
    eqn:Bad; [reflexivity|].
  apply orb_false_elim in Bad as [Bad _].
  apply orb_false_elim in Bad as [B1 B2].
  apply Z.ltb_ge in B1, B2.
  destruct (r <? 128) eqn:C1; [apply Z.ltb_lt in C1|apply Z.ltb_ge in C1].
  { cbn [head_not_digit]. rewrite not_digit_byte_of by lia. reflexivity. }
  assert (forall lead sh, lead = 192 \/ lead = 224 \/ lead = 240 ->
            0 <= Z.shiftr r sh < 256 - lead ->
            is_digit (byte_of (Z.lor lead (Z.shiftr r sh))) = false) as Lead.
  { intros lead sh L R. pose proof (lor_lead_range lead _ L R).
    apply not_digit_byte_of; lia. }
  destruct (r <? 2048) eqn:C2; [apply Z.ltb_lt in C2|apply Z.ltb_ge in C2].
  { cbn [head_not_digit]. rewrite Lead; [reflexivity|tauto|].
    rewrite Z.shiftr_div_pow2 by lia. change (2 ^ 6) with 64.
    split; [apply Z.div_pos; lia|apply Z.div_lt_upper_bound; lia]. }
  destruct (r <? 65536) eqn:C3; [apply Z.ltb_lt in C3|apply Z.ltb_ge in C3].
  { cbn [head_not_digit]. rewrite Lead; [reflexivity|tauto|].
    rewrite Z.shiftr_div_pow2 by lia. change (2 ^ 12) with 4096.
    split; [apply Z.div_pos; lia|apply Z.div_lt_upper_bound; lia]. }
  cbn [head_not_digit]. rewrite Lead; [reflexivity|tauto|].
  rewrite Z.shiftr_div_pow2 by lia. change (2 ^ 18) with 262144.
  split; [apply Z.div_pos; lia|apply Z.div_lt_upper_bound; lia].
Qed.

Lemma TrimPrefix_head_not_digit (s : list byte) :
  head_not_digit s = true ->
  TrimPrefix (TrimPrefix s [ch_zero]) [] = s.
Proof.
  intros H. destruct s as [|c s]; [discriminate|].
  unfold TrimPrefix at 2. cbn [length firstn].
  unfold bytes_eqb. destruct (list_eq_dec _ _ _) as [E|_].
  - injection E as ->. discriminate H.
  - reflexivity.
Qed.

(** X11: From 100 on (and as long as the quotient fits a rune) the text
    [intToStr] gives does not start with a digit: the tens "digit" is the
    character after '9', or further up. *)
Theorem intToStr_from_100 (n : Z) :
  100 <= n < 2 ^ 31 ->
  head_not_digit (intToStr n) = true.
Proof.
  intros R. unfold intToStr.
  assert (10 <= Z.quot n 10 < 2 ^ 31 - 48) as Q.
  { rewrite Z.quot_div_nonneg by lia.
    split; [apply Z.div_le_lower_bound; lia
           |apply Z.div_lt_upper_bound; lia]. }
  assert (int32 (code ch_zero + Z.quot n 10) = 48 + Z.quot n 10) as I.
  { unfold int32. change (code ch_zero) with 48.
    rewrite Z.mod_small by lia. lia. }
  rewrite I.
  pose proof (string_of_rune_head (48 + Z.quot n 10) ltac:(lia)) as H.
  destruct (string_of_rune (48 + Z.quot n 10)) as [|c s] eqn:S;
    [discriminate|].
  cbn [app]. rewrite TrimPrefix_head_not_digit; exact H.
Qed.

(** X10, witness. *)
Lemma intToStr_two_digits_witness :
  forallb is_digit (intToStr 42) = true /\
  decimal (intToStr 42) = 42 /\
  length (intToStr 42) = if 42 <? 10 then 1%nat else 2%nat.
Proof. apply (intToStr_two_digits 42). lia. Defined.

(** X11, witness. *)
Lemma intToStr_from_100_witness : head_not_digit (intToStr 100) = true.
Proof. apply (intToStr_from_100 100). lia. Defined.

(** ** Properties of the job store *)

(** *** Properties of the map *)

Lemma map_get_set_same (id : string) (job : CronJob) (m : jobmap) :
  map_get id (map_set id job m) = Some job.
Proof.
  induction m as [|[k j] m IH]; simpl.
  - now rewrite String.eqb_refl.
  - destruct (String.eqb k id) eqn:E; simpl.
    + now rewrite String.eqb_refl.
    + now rewrite E.
Qed.

Lemma map_get_set_other (id id' : string) (job : CronJob) (m : jobmap) :
  id' <> id -> map_get id' (map_set id job m) = map_get id' m.
Proof.
  intros N. induction m as [|[k j] m IH]; simpl.
  - apply String.eqb_neq in N. rewrite String.eqb_sym. now rewrite N.
  - destruct (String.eqb k id) eqn:E; simpl.
    + apply String.eqb_eq in E. subst k.
      apply String.eqb_neq in N. rewrite String.eqb_sym in N. now rewrite N.
    + destruct (String.eqb k id'); [reflexivity|exact IH].
Qed.

Lemma map_get_delete_same (id : string) (m : jobmap) :
  map_get id (map_delete id m) = None.
Proof.
  unfold map_delete. induction m as [|[k j] m IH]; simpl; [reflexivity|].
  destruct (String.eqb k id) eqn:E; simpl; [exact IH|]. now rewrite E.
Qed.

Lemma map_get_delete_other (id id' : string) (m : jobmap) :
  id' <> id -> map_get id' (map_delete id m) = map_get id' m.
Proof.
  intros N. unfold map_delete. induction m as [|[k j] m IH]; simpl;
    [reflexivity|].
  destruct (String.eqb k id) eqn:E; simpl.
  - apply String.eqb_eq in E. subst k.
    apply String.eqb_neq in N. rewrite String.eqb_sym in N. now rewrite N.
  - destruct (String.eqb k id'); [reflexivity|exact IH].
Qed.

Lemma map_get_None_keys (id : string) (m : jobmap) :
  map_get id m = None <-> ~ In id (keys m).
Proof.
  induction m as [|[k j] m IH]; simpl.
  - tauto.
  - destruct (String.eqb k id) eqn:E.
    + apply String.eqb_eq in E. split; [discriminate|]. intros H. elim H. auto.
    + apply String.eqb_neq in E. rewrite IH. tauto.
Qed.

Lemma map_set_fresh (id : string) (job : CronJob) (m : jobmap) :
  map_get id m = None -> map_set id job m = m ++ [(id, job)].
Proof.
  induction m as [|[k j] m IH]; simpl; [reflexivity|].
  destruct (String.eqb k id); [discriminate|]. intros H. now rewrite IH.
Qed.

Lemma map_set_present (id : string) (job existing : CronJob) (m : jobmap) :
  map_get id m = Some existing ->
  map_set id existing (map_set id job m) = m.
Proof.
  induction m as [|[k j] m IH]; simpl; [discriminate|].
  destruct (String.eqb k id) eqn:E; simpl.
  - intros H. injection H as <-. rewrite String.eqb_refl.
    apply String.eqb_eq in E. now subst k.
  - rewrite E. intros H. now rewrite IH.
Qed.

Lemma map_delete_fresh (id : string) (m : jobmap) :
  map_get id m = None -> map_delete id m = m.
Proof.
  unfold map_delete. induction m as [|[k j] m IH]; simpl; [reflexivity|].
  destruct (String.eqb k id); [discriminate|]. intros H. simpl. now rewrite IH.
Qed.

Lemma map_delete_set_fresh (id : string) (job : CronJob) (m : jobmap) :
  map_get id m = None -> map_delete id (map_set id job m) = m.
Proof.
  intros H. rewrite (map_set_fresh _ _ _ H). unfold map_delete.
  rewrite filter_app. simpl. rewrite String.eqb_refl. simpl.
  rewrite app_nil_r. exact (map_delete_fresh _ _ H).
Qed.

Lemma keys_map_set (id : string) (job : CronJob) (m : jobmap) :
  keys (map_set id job m)
  = match map_get id m with
    | Some _ => keys m
    | None => keys m ++ [id]
    end.
Proof.
  induction m as [|[k j] m IH]; simpl; [reflexivity|].
  destruct (String.eqb k id) eqn:E; simpl.
  - apply String.eqb_eq in E. now subst k.
  - rewrite IH. destruct (map_get id m); reflexivity.
Qed.

Lemma map_set_wf (id : string) (job : CronJob) (m : jobmap) :
  ID job = id -> jobmap_wf m -> jobmap_wf (map_set id job m).
Proof.
  intros HI [ND F]. split.
  - rewrite keys_map_set. destruct (map_get id m) eqn:G; [exact ND|].
    apply map_get_None_keys in G.
    apply NoDup_app; [exact ND|repeat constructor; intros []|].
    intros x Hx [<-|[]]. contradiction.
  - clear ND. induction m as [|[k j] m IH]; simpl.
    + repeat constructor. exact HI.
    + inversion F as [|? ? F1 F2]; subst x l.
      destruct (String.eqb k id); constructor; auto.
Qed.

Lemma map_delete_wf (id : string) (m : jobmap) :
  jobmap_wf m -> jobmap_wf (map_delete id m).
Proof.
  intros [ND F]. unfold map_delete. split.
  - clear F. induction m as [|[k j] m IH]; simpl; [constructor|].
    inversion ND; subst.
    destruct (String.eqb k id); simpl; [auto|].
    constructor; [|auto]. intros H. apply H1.
    unfold keys in *. apply in_map_iff in H as (e & <- & He).
    apply filter_In in He as [He _]. now apply in_map.
  - apply Forall_forall. intros e He. apply filter_In in He as [He _].
    rewrite Forall_forall in F. auto.
Qed.

(** *** Properties of the store *)

Lemma store_eta (s : cronStore) :
  mkCronStore (mu s) (jobs s) (crons_json s) (crontab s) (host_crontab s) = s.
Proof. now destruct s. Qed.

Ltac store_simpl :=
  cbv beta iota zeta delta
    [and_then ret modify read Lock Unlock RLock RUnlock store_save
     set_mu set_jobs set_crons_json set_crontab set_host_crontab
     mu jobs crons_json crontab host_crontab write_file write_error
     store_of syncCrontab] in *.

(** X12: Creating a job that is not enabled, with crons.json written: the
    call returns nil and releases the lock; the job is in the map under the
    new ID with the creation time, the other IDs keep their jobs, crons.json
    holds the jobs of the map, and neither crontab file is touched. *)
Theorem store_create_disabled
  (s : cronStore) (job : CronJob) (id : string) (now : GoTime)
  (cw hw : write_result string) :
  mu s = MuFree -> Enabled job = false ->
  exists s',
    store_create job id now WriteOk cw hw s
      = Returned (stamped job id (LastRun job) (LastStatus job) now, None) s' /\
    mu s' = MuFree /\
    map_get id (jobs s')
      = Some (stamped job id (LastRun job) (LastStatus job) now) /\
    (forall id', id' <> id -> map_get id' (jobs s') = map_get id' (jobs s)) /\
    disk_synced s' /\
    crontab s' = crontab s /\ host_crontab s' = host_crontab s.
Proof.
  intros Hmu Hen. unfold store_create, stamped, disk_synced.
  store_simpl. rewrite Hmu. cbn [Enabled ID]. rewrite Hen.
  eexists. split; [reflexivity|]. store_simpl.
  repeat split; auto using map_get_set_same, map_get_set_other.
Qed.

(** Creating an enabled job with the file written leaves the caller waiting
    with the write lock held. *)
Lemma store_create_enabled_locks
  (s : cronStore) (job : CronJob) (id : string) (now : GoTime)
  (cw hw : write_result string) :
  mu s = MuFree -> Enabled job = true ->
  exists s',
    store_create job id now WriteOk cw hw s = Blocked s' /\ mu s' = MuWrite.
Proof.
  intros Hmu Hen. unfold store_create. store_simpl. rewrite Hmu.
  cbn [Enabled ID]. rewrite Hen. eexists. split; reflexivity.
Qed.

(** X13: Creating an enabled job with the file written: the call reaches
    [syncCrontab] with the write lock held and waits there for that same
    lock. The job is in the map and in crons.json, the crontab is not
    written. *)
Theorem store_create_enabled_blocks
  (s : cronStore) (job : CronJob) (id : string) (now : GoTime)
  (cw hw : write_result string) :
  mu s = MuFree -> Enabled job = true ->
  exists s',
    store_create job id now WriteOk cw hw s = Blocked s' /\
    mu s' = MuWrite /\
    map_get id (jobs s')
      = Some (stamped job id (LastRun job) (LastStatus job) now) /\
    disk_synced s' /\
    crontab s' = crontab s /\ host_crontab s' = host_crontab s.
Proof.
  intros Hmu Hen. unfold store_create, stamped, disk_synced.
  store_simpl. rewrite Hmu. cbn [Enabled ID]. rewrite Hen.
  eexists. split; [reflexivity|]. store_simpl.
  repeat split; auto using map_get_set_same.
Qed.

(** X14: Updating or deleting a job that exists, with the file written, waits in
    the same way; the map and crons.json have the change, the crontab has
    not. *)
Theorem store_update_delete_block
  (s : cronStore) (id : string) (job existing : CronJob)
  (cw hw : write_result string) :
  mu s = MuFree -> map_get id (jobs s) = Some existing ->
  (exists s',
     store_update id job WriteOk cw hw s = Blocked s' /\
     mu s' = MuWrite /\
     map_get id (jobs s')
       = Some (stamped job id (LastRun existing) (LastStatus existing)
                       (CreatedAt existing)) /\
     disk_synced s' /\
     crontab s' = crontab s /\ host_crontab s' = host_crontab s) /\
  (exists s',
     store_delete id WriteOk cw hw s = Blocked s' /\
     mu s' = MuWrite /\
     map_get id (jobs s') = None /\
     disk_synced s' /\
     crontab s' = crontab s /\ host_crontab s' = host_crontab s).
Proof.
  intros Hmu Hex. unfold store_update, store_delete, stamped, disk_synced.
  store_simpl. rewrite Hmu. store_simpl. rewrite Hex.
  split; (eexists; split; [reflexivity|]); store_simpl;
    repeat split; auto using map_get_set_same, map_get_delete_same.
Qed.

(** With the write lock held, every call on the store waits and changes
    nothing. *)
Lemma run_call_locked (c : call) (s : cronStore) :
  mu s = MuWrite -> run_call c s = Blocked s.
Proof.
  intros Hmu.
  destruct c; unfold run_call, store_list, store_get, getCronCount,
    store_create, store_update, store_delete, store_updateRunStatus;
    store_simpl; rewrite Hmu; reflexivity.
Qed.

Lemma perform_all_locked (cs : list call) : forall s : cronStore,
  mu s = MuWrite -> perform_all cs s = s.
Proof.
  induction cs as [|c cs IH]; intros s Hmu; simpl; [reflexivity|].
  unfold perform. rewrite (run_call_locked _ _ Hmu). simpl. now apply IH.
Qed.

(** X15: After one call has locked itself out, the store is gone for good:
    whatever calls follow, each of them waits. *)
Theorem store_dead_after_enabled_create
  (s : cronStore) (job : CronJob) (id : string) (now : GoTime)
  (cw hw : write_result string) (cs : list call) (c : call) :
  mu s = MuFree -> Enabled job = true ->
  exists s',
    run_call c
      (perform_all cs (perform (CallCreate job id now WriteOk cw hw) s))
    = Blocked s'.
Proof.
  intros Hmu Hen.
  destruct (store_create_enabled_locks s job id now cw hw Hmu Hen)
    as (s' & E & Hmu').
  assert (perform (CallCreate job id now WriteOk cw hw) s = s') as P.
  { unfold perform, run_call, and_then. now rewrite E. }
  rewrite P, (perform_all_locked _ _ Hmu').
  exists s'. now apply run_call_locked.
Qed.

(** No call on the store ever writes either crontab file. *)
Lemma perform_crontab (c : call) (s : cronStore) :
  crontab (perform c s) = crontab s /\
  host_crontab (perform c s) = host_crontab s.
Proof.
  unfold perform. destruct s as [m j cj ct hc].
  destruct c; unfold run_call, store_list, store_get, getCronCount,
    store_create, store_update, store_delete, store_updateRunStatus;
    destruct m as [|[|n]|]; store_simpl; auto;
    repeat match goal with
           | |- context [match map_get ?i ?m with _ => _ end] =>
               destruct (map_get i m); store_simpl; auto
           | |- context [match ?w with WriteOk => _ | WriteErr _ _ => _ end] =>
               destruct w; store_simpl; auto
           | |- context [if ?b then _ else _] =>
               destruct b; store_simpl; auto
           end.
Qed.

(** X16: Whatever calls are made on the store, and however each ends, neither
    crontab file is ever written: [syncCrontab] is only reached with the
    write lock held and stops at its [RLock]. *)
Theorem crontab_never_written (cs : list call) : forall s : cronStore,
  crontab (perform_all cs s) = crontab s /\
  host_crontab (perform_all cs s) = host_crontab s.
Proof.
  induction cs as [|c cs IH]; intros s; simpl; [auto|].
  destruct (IH (perform c s)) as [H1 H2].
  destruct (perform_crontab c s) as [H3 H4]. split; congruence.
Qed.

(** X17: Update and delete of an ID that is not in the map answer "job not
    found" and leave everything as it was. *)
Theorem store_update_delete_not_found
  (s : cronStore) (id : string) (job : CronJob)
  (w : write_result (list (option CronJob))) (cw hw : write_result string) :
  mu s = MuFree -> map_get id (jobs s) = None ->
  store_update id job w cw hw s = Returned (Some job_not_found) s /\
  store_delete id w cw hw s = Returned (Some job_not_found) s.
Proof.
  intros Hmu Hno. destruct s as [m j cj ct hc]. simpl in Hmu, Hno. subst m.
  unfold store_update, store_delete. store_simpl. rewrite Hno.
  split; reflexivity.
Qed.

(** X18: When [save] fails, create (of a fresh ID), update and delete give the
    error back and the map holds what it held before. *)
Theorem store_failed_save_rolls_back
  (s : cronStore) (id msg : string) (job : CronJob) (now : GoTime)
  (after : file (list (option CronJob))) (cw hw : write_result string) :
  mu s = MuFree ->
  (map_get id (jobs s) = None ->
   exists s',
     store_create job id now (WriteErr msg after) cw hw s
       = Returned (stamped job id (LastRun job) (LastStatus job) now,
                   Some msg) s' /\
     mu s' = MuFree /\ jobs s' = jobs s) /\
  (forall existing, map_get id (jobs s) = Some existing ->
   (exists s',
      store_update id job (WriteErr msg after) cw hw s
        = Returned (Some msg) s' /\
      mu s' = MuFree /\ jobs s' = jobs s) /\
   (exists s',
      store_delete id (WriteErr msg after) cw hw s = Returned (Some msg) s' /\
      mu s' = MuFree /\
      forall id', map_get id' (jobs s') = map_get id' (jobs s))).
Proof.
  intros Hmu. destruct s as [m j cj ct hc]. simpl in Hmu. subst m.
  cbn [jobs]. split; [intros Hno|intros existing Hex; split].
  - unfold store_create, stamped. store_simpl. cbn [ID].
    eexists. split; [reflexivity|]. split; [reflexivity|].
    now apply map_delete_set_fresh.
  - unfold store_update. store_simpl. rewrite Hex.
    eexists. split; [reflexivity|]. split; [reflexivity|].
    now apply map_set_present.
  - unfold store_delete. store_simpl. rewrite Hex.
    eexists. split; [reflexivity|]. split; [reflexivity|].
    intros id'. destruct (string_dec id' id) as [->|N].
    + now rewrite map_get_set_same.
    + now rewrite map_get_set_other, map_get_delete_other.
Qed.

(** X19: Recording a run: the job gets the time and the status and nothing else
    changes; the call returns whether or not crons.json could be written,
    and when it could not the map is not put back. *)
Theorem store_updateRunStatus_spec
  (s : cronStore) (id status : string) (now : GoTime)
  (w : write_result (list (option CronJob))) :
  mu s = MuFree ->
  match map_get id (jobs s) with
  | Some job =>
      exists s',
        store_updateRunStatus id status now w s = Returned tt s' /\
        mu s' = MuFree /\
        map_get id (jobs s')
          = Some (stamped job (ID job) (Some now) status (CreatedAt job)) /\
        (forall id', id' <> id ->
                     map_get id' (jobs s') = map_get id' (jobs s)) /\
        crons_json s' = write_file w (map Some (map_values (jobs s')))
  | None => store_updateRunStatus id status now w s = Returned tt s
  end.
Proof.
  intros Hmu. destruct s as [m j cj ct hc]. simpl in Hmu. subst m.
  cbn [jobs]. unfold store_updateRunStatus, stamped. store_simpl.
  destruct (map_get id j) as [job|] eqn:G; [|reflexivity].
  eexists. split; [reflexivity|]. store_simpl.
  repeat split; auto using map_get_set_same, map_get_set_other.
Qed.

(** *** The jobs stay filed under their IDs *)

Lemma load_jobs_wf (l : list (option CronJob)) : forall m : jobmap,
  jobmap_wf m -> jobmap_wf (fst (load_jobs l m)).
Proof.
  induction l as [|[job|] l IH]; intros m W; simpl; auto.
  apply IH. now apply map_set_wf.
Qed.

Lemma map_get_wf_ID (id : string) (job : CronJob) (m : jobmap) :
  jobmap_wf m -> map_get id m = Some job -> ID job = id.
Proof.
  intros [_ F]. induction m as [|[k j] m IH]; simpl; [discriminate|].
  inversion F as [|? ? F1 F2]; subst x l. simpl in F1.
  destruct (String.eqb k id) eqn:E; [|auto].
  intros H. injection H as <-. apply String.eqb_eq in E. congruence.
Qed.

Lemma perform_wf (c : call) (s : cronStore) :
  jobmap_wf (jobs s) -> jobmap_wf (jobs (perform c s)).
Proof.
  unfold perform. destruct s as [m j cj ct hc]. cbn [jobs]. intros W.
  destruct c; unfold run_call, store_list, store_get, getCronCount,
    store_create, store_update, store_delete, store_updateRunStatus;
    destruct m as [|[|n]|]; store_simpl; auto;
    repeat match goal with
           | |- context [match map_get ?i ?m with _ => _ end] =>
               let G := fresh "G" in
               destruct (map_get i m) eqn:G; store_simpl; auto
           | |- context [match ?w with WriteOk => _ | WriteErr _ _ => _ end] =>
               destruct w; store_simpl; auto
           | |- context [if ?b then _ else _] =>
               destruct b; store_simpl; auto
           end;
    cbn [ID];
    repeat first [ apply map_set_wf | apply map_delete_wf ];
    cbn [ID]; eauto using map_get_wf_ID.
Qed.

Lemma perform_all_wf (cs : list call) : forall s : cronStore,
  jobmap_wf (jobs s) -> jobmap_wf (jobs (perform_all cs s)).
Proof.
  induction cs as [|c cs IH]; intros s W; simpl; [exact W|].
  apply IH. now apply perform_wf.
Qed.

Lemma jobmap_wf_nil : jobmap_wf [].
Proof. split; constructor. Qed.

Lemma initCronStorage_wf (read_err : error) (parse_msg : string)
  (s : cronStore) :
  jobmap_wf (jobs (store_of (initCronStorage None read_err parse_msg s))).
Proof.
  unfold initCronStorage, store_load. destruct s as [m j cj ct hc].
  store_simpl. destruct cj as [|l|]; store_simpl;
    try destruct read_err; store_simpl; try apply jobmap_wf_nil.
  pose proof (load_jobs_wf l [] jobmap_wf_nil) as W.
  destruct (load_jobs l []) as [m' [|]]; store_simpl; exact W.
Qed.

(** X20: From start-up on, whatever calls the handlers and the job runner
    make on the store (each create and update with a job of its own, as
    they do) and however the calls end, a job found under an ID carries that
    ID, and no ID is in the map twice. *)
Theorem store_jobs_filed_by_ID
  (read_err : error) (parse_msg : string) (fs : cronStore)
  (cs : list call) (id : string) (job : CronJob) :
  let s :=
    perform_all cs (store_of (initCronStorage None read_err parse_msg fs)) in
  NoDup (keys (jobs s)) /\
  (map_get id (jobs s) = Some job -> ID job = id).
Proof.
  intros s.
  assert (jobmap_wf (jobs s)) as W
    by (apply perform_all_wf, initCronStorage_wf).
  split; [apply W|]. now apply map_get_wf_ID.
Qed.

(** *** Loading a file *)

Lemma find_app_last {A : Type} (f : A -> bool) (l : list A) (a : A) :
  find f (rev (a :: l))
  = match find f (rev l) with
    | Some x => Some x
    | None => if f a then Some a else None
    end.
Proof.
  simpl. generalize (rev l) as r. induction r as [|x r IH]; simpl.
  - reflexivity.
  - destruct (f x); [reflexivity|exact IH].
Qed.

Lemma load_jobs_lookup (l : list CronJob) : forall (m : jobmap) (id : string),
  map_get id (fst (load_jobs (map Some l) m))
  = match find (has_ID id) (rev l) with
    | Some job => Some job
    | None => map_get id m
    end.
Proof.
  induction l as [|j l IH]; intros m id; [reflexivity|].
  cbn [map load_jobs]. rewrite IH, find_app_last.
  destruct (find (has_ID id) (rev l)); [reflexivity|].
  unfold has_ID. destruct (String.eqb (ID j) id) eqn:E.
  - apply String.eqb_eq in E. subst id. apply map_get_set_same.
  - apply String.eqb_neq in E. apply map_get_set_other. congruence.
Qed.

Lemma load_jobs_flag (l : list (option CronJob)) : forall m : jobmap,
  snd (load_jobs l m)
  = existsb (fun o => match o with None => true | Some _ => false end) l.
Proof.
  induction l as [|[j|] l IH]; intros m; simpl; auto.
Qed.

(** X22: Loading a file of jobs: under each ID the map gets the last job of the
    file with that ID, and keeps what it had under the IDs the file does not
    mention. *)
Theorem store_load_last_wins
  (s : cronStore) (l : list CronJob) (parse_msg : string) :
  mu s = MuFree -> crons_json s = Content (map Some l) ->
  exists s',
    store_load None parse_msg s = Returned None s' /\
    mu s' = MuFree /\
    forall id,
      map_get id (jobs s')
      = match find (has_ID id) (rev l) with
        | Some job => Some job
        | None => map_get id (jobs s)
        end.
Proof.
  intros Hmu D. destruct s as [m j cj ct hc]. cbn [mu jobs crons_json] in *.
  subst m cj. unfold store_load. store_simpl.
  pose proof (load_jobs_lookup l j) as L.
  pose proof (load_jobs_flag (map Some l) j) as Fl.
  destruct (load_jobs (map Some l) j) as [m' fl]. cbn [fst snd] in *.
  assert (fl = false) as ->.
  { rewrite Fl. clear. induction l; simpl; auto. }
  store_simpl. eexists. repeat split. exact L.
Qed.

(** X23: A JSON null in the array of crons.json makes [load] dereference a nil
    pointer: the call panics, with the jobs before the null loaded. *)
Theorem store_load_null_panics
  (s : cronStore) (before : list CronJob) (rest : list (option CronJob))
  (read_msg : string) :
  mu s = MuFree ->
  crons_json s = Content (map Some before ++ None :: rest) ->
  exists s',
    store_load None read_msg s = Panicked s' /\
    mu s' = MuFree /\
    jobs s' = fst (load_jobs (map Some before) (jobs s)).
Proof.
  intros Hmu D. destruct s as [m j cj ct hc]. cbn [mu jobs crons_json] in *.
  subst m cj. unfold store_load. store_simpl.
  assert (load_jobs (map Some before ++ None :: rest) j
          = (fst (load_jobs (map Some before) j), true)) as E.
  { clear. revert j. induction before as [|b before IH]; intros j; simpl;
      [reflexivity|apply IH]. }
  rewrite E. store_simpl. eexists. repeat split.
Qed.

Lemma default_field_nonempty (field fallback : string) :
  fallback <> EmptyString -> default_field field fallback <> EmptyString.
Proof.
  unfold default_field. intros N.
  destruct (String.eqb field EmptyString) eqn:E; [exact N|].
  now apply String.eqb_neq in E.
Qed.

Lemma default_field_keeps (field fallback : string) :
  field <> EmptyString -> default_field field fallback = field.
Proof.
  unfold default_field. intros N. apply String.eqb_neq in N. now rewrite N.
Qed.

(** X24: [validateSchedule] rejects nothing: whatever the six fields hold, it
    returns nil. It puts "0" for an empty second and "*" for every other
    empty field and keeps a field that is set as it is, so no field is left
    empty and checking twice changes nothing more. *)
Theorem validateSchedule_fills_only (s : CronSchedule) :
  snd (validateSchedule s) = None /\
  fields (fst (validateSchedule s))
  = map (fun p => if String.eqb (fst p) EmptyString then snd p else fst p)
        (combine (fields s)
                 ["0"%string; "*"%string; "*"%string; "*"%string;
                  "*"%string; "*"%string]) /\
  Forall (fun f => f <> EmptyString) (fields (fst (validateSchedule s))) /\
  Forall2 (fun before after => before <> EmptyString -> after = before)
          (fields s) (fields (fst (validateSchedule s))) /\
  validateSchedule (fst (validateSchedule s)) = validateSchedule s.
Proof.
  unfold validateSchedule, fields. cbn [fst snd Second Minute Hour Day Month
                                        Weekday].
  split; [reflexivity|]. split; [reflexivity|]. split; [|split].
  - repeat constructor; apply default_field_nonempty; discriminate.
  - repeat constructor; apply default_field_keeps.
  - f_equal. f_equal;
      apply default_field_keeps, default_field_nonempty; discriminate.
Qed.

Lemma count_nl_append (a b : string) :
  count_nl (a +++ b) = (count_nl a + count_nl b)%nat.
Proof.
  induction a as [|c a IH]; simpl; [reflexivity|]. rewrite IH. lia.
Qed.

Lemma crontab_content_count (lines : list string) : forall acc : string,
  count_nl (fold_left (fun content line => content +++ line +++ nl) lines acc)
  = (count_nl acc + length lines + list_sum (map count_nl lines))%nat.
Proof.
  induction lines as [|l lines IH]; intros acc; simpl; [lia|].
  rewrite IH, !count_nl_append. simpl. lia.
Qed.

(** The newline count of a job's line is that of its five schedule fields,
    command and ID: nothing is escaped. *)
Lemma crontab_line_count (job : CronJob) :
  count_nl (crontab_line job)
  = (count_nl (Minute (Schedule job)) + count_nl (Hour (Schedule job))
     + count_nl (Day (Schedule job)) + count_nl (Month (Schedule job))
     + count_nl (Weekday (Schedule job)) + count_nl (Command job)
     + count_nl (ID job))%nat.
Proof.
  unfold crontab_line. rewrite !count_nl_append. simpl. lia.
Qed.

(** X25: Written with [WriteOk] for both files, [syncCrontab] on a free store
    puts the same text in both; the text has the newline of the header line
    and, for each enabled job, one newline more than its five schedule
    fields, command and ID contain: nothing is escaped. *)
Theorem syncCrontab_text (s : cronStore) :
  mu s = MuFree ->
  let text := crontab_content (crontab_lines (jobs s)) in
  exists s',
    syncCrontab WriteOk WriteOk s = Returned tt s' /\
    mu s' = MuFree /\ jobs s' = jobs s /\
    crontab s' = Content text /\ host_crontab s' = Content text /\
    count_nl text
    = (1 + length (enabled_jobs (jobs s))
       + list_sum
           (map (fun job =>
                   count_nl (Minute (Schedule job))
                   + count_nl (Hour (Schedule job))
                   + count_nl (Day (Schedule job))
                   + count_nl (Month (Schedule job))
                   + count_nl (Weekday (Schedule job))
                   + count_nl (Command job) + count_nl (ID job))
                (enabled_jobs (jobs s))))%nat.
Proof.
  intros Hmu text. destruct s as [m j cj ct hc]. simpl in Hmu. subst m.
  store_simpl. eexists. repeat split.
  subst text. unfold crontab_content, crontab_lines.
  rewrite crontab_content_count. fold (enabled_jobs j).
  cbn [length map list_sum count_nl]. rewrite length_map, map_map.
  change (count_nl crontab_header) with 0%nat.
  rewrite (map_ext _ _ crontab_line_count).
  unfold list_sum. cbn [fold_right]. lia.
Qed.

(** *** The handlers *)

(** X26: [handleCronCreate] answers 201, 400 or 500, and 201 only for a job
    that is not enabled. For an enabled job it answers 400 or 500 or does
    not answer: with name and command given, the lock free and crons.json
    written it waits for ever inside [create], and with crons.json not
    written it answers 500 with the message of the error. *)
Theorem handleCronCreate_created_only_disabled
  (decoded : option CronJob) (id : string) (now : GoTime)
  (w : write_result (list (option CronJob))) (cw hw : write_result string)
  (s : cronStore) :
  (forall r s',
     handleCronCreate decoded id now w cw hw s = Returned r s' ->
     (status_code r = 201 /\
      exists job, decoded = Some job /\ Enabled job = false) \/
     status_code r = 400 \/ status_code r = 500) /\
  (forall job, decoded = Some job -> Enabled job = true ->
     (forall r s',
        handleCronCreate decoded id now w cw hw s = Returned r s' ->
        status_code r = 400 \/ status_code r = 500) /\
     (incomplete job = false -> mu s = MuFree ->
      (w = WriteOk ->
       exists s',
         handleCronCreate decoded id now w cw hw s = Blocked s' /\
         mu s' = MuWrite) /\
      (forall msg after, w = WriteErr msg after ->
       exists s',
         handleCronCreate decoded id now w cw hw s
           = Returned (mkResponse 500 (BodyText msg)) s' /\
         mu s' = MuFree))).
Proof.
  assert (forall r s',
            handleCronCreate decoded id now w cw hw s = Returned r s' ->
            (status_code r = 201 /\
             exists job, decoded = Some job /\ Enabled job = false) \/
            status_code r = 400 \/ status_code r = 500) as A.
  { intros r s'. unfold handleCronCreate.
    destruct decoded as [job|]; store_simpl;
      [|intros H; injection H as <- <-; auto].
    destruct (incomplete job);
      [intros H; injection H as <- <-; auto|].
    cbn [validateSchedule]. unfold store_create. store_simpl.
    destruct s as [m j cj ct hc]. destruct m as [|[|n]|]; store_simpl;
      try discriminate.
    cbn [Enabled with_schedule ID]. destruct w; store_simpl.
    - destruct (Enabled job) eqn:E; store_simpl; [discriminate|].
      intros H; injection H as <- <-. left. eauto.
    - cbn [snd]. intros H; injection H as <- <-; auto. }
  split; [exact A|]. intros job -> Hen. split.
  - intros r s' H. destruct (A r s' H) as [(_ & job' & E & D)|X];
      [injection E as <-; congruence|exact X].
  - intros I Hmu. destruct s as [m j cj ct hc]. cbn [mu] in Hmu. subst m.
    unfold handleCronCreate. rewrite I. cbn [validateSchedule].
    unfold store_create. store_simpl. cbn [Enabled with_schedule ID].
    split.
    + intros ->. store_simpl. rewrite Hen. store_simpl.
      eexists. split; reflexivity.
    + intros msg after ->. store_simpl. cbn [snd].
      eexists. split; reflexivity.
Qed.

(** X27: [handleCronUpdate] and [handleCronDelete] never answer 200: whenever
    they answer, the status is 400, 404 or 500. Where the call on the store
    would succeed (the job exists, the lock is free, crons.json is written)
    the handler waits for ever inside [update] or [delete]. *)
Theorem handleCronUpdate_Delete_never_succeed
  (id : string) (decoded : option CronJob)
  (w : write_result (list (option CronJob))) (cw hw : write_result string)
  (s : cronStore) :
  (forall r s',
     handleCronUpdate id decoded w cw hw s = Returned r s' ->
     status_code r = 400 \/ status_code r = 404 \/ status_code r = 500) /\
  (forall r s',
     handleCronDelete id w cw hw s = Returned r s' ->
     status_code r = 400 \/ status_code r = 404 \/ status_code r = 500) /\
  (forall existing,
     id <> EmptyString -> mu s = MuFree ->
     map_get id (jobs s) = Some existing -> w = WriteOk ->
     (forall job, decoded = Some job -> incomplete job = false ->
      exists s',
        handleCronUpdate id decoded w cw hw s = Blocked s' /\
        mu s' = MuWrite) /\
     (exists s',
        handleCronDelete id w cw hw s = Blocked s' /\ mu s' = MuWrite)).
Proof.
  assert (forall msg,
            status_code (store_error_response msg) = 400 \/
            status_code (store_error_response msg) = 404 \/
            status_code (store_error_response msg) = 500) as SE.
  { intros msg. unfold store_error_response.
    destruct (String.eqb msg job_not_found); auto. }
  destruct s as [m j cj ct hc]. split; [|split].
  - intros r s'. unfold handleCronUpdate.
    destruct (String.eqb id EmptyString);
      [intros H; injection H as <- <-; auto|].
    destruct decoded as [job|];
      [|intros H; injection H as <- <-; auto].
    destruct (incomplete job);
      [intros H; injection H as <- <-; auto|].
    cbn [validateSchedule]. unfold store_update. store_simpl.
    destruct m as [|[|n]|]; store_simpl; try discriminate.
    destruct (map_get id j) eqn:G; store_simpl.
    + destruct w; store_simpl; [discriminate|].
      intros H; injection H as <- <-. apply SE.
    + intros H; injection H as <- <-. apply SE.
  - intros r s'. unfold handleCronDelete.
    destruct (String.eqb id EmptyString);
      [intros H; injection H as <- <-; auto|].
    unfold store_delete. store_simpl.
    destruct m as [|[|n]|]; store_simpl; try discriminate.
    destruct (map_get id j) eqn:G; store_simpl.
    + destruct w; store_simpl; [discriminate|].
      intros H; injection H as <- <-. apply SE.
    + intros H; injection H as <- <-. apply SE.
  - intros existing Hid Hmu Hex ->. cbn [mu jobs] in Hmu, Hex. subst m.
    apply String.eqb_neq in Hid. split.
    + intros job -> I. unfold handleCronUpdate. rewrite Hid, I.
      cbn [validateSchedule]. unfold store_update. store_simpl.
      rewrite Hex. store_simpl. eexists. split; reflexivity.
    + unfold handleCronDelete. rewrite Hid.
      unfold store_delete. store_simpl.
      rewrite Hex. store_simpl. eexists. split; reflexivity.
Qed.

(** X28: A job that [handleCronCreate] adds to the map has a name, a command and
    all six schedule fields set, and is filed under the new ID. *)
Theorem handleCronCreate_adds_complete_jobs
  (decoded : option CronJob) (id : string) (now : GoTime)
  (w : write_result (list (option CronJob))) (cw hw : write_result string)
  (s : cronStore) (added : CronJob) :
  map_get id (jobs s) = None ->
  map_get id (jobs (store_of (handleCronCreate decoded id now w cw hw s)))
    = Some added ->
  Name added <> EmptyString /\ Command added <> EmptyString /\
  Forall (fun f => f <> EmptyString) (fields (Schedule added)) /\
  ID added = id /\ CreatedAt added = now.
Proof.
  intros Hno. unfold handleCronCreate.
  destruct decoded as [job|]; store_simpl; [|congruence].
  destruct (incomplete job) eqn:I; store_simpl; [congruence|].
  cbn [validateSchedule]. unfold store_create. store_simpl.
  destruct s as [m j cj ct hc]. cbn [jobs] in Hno.
  destruct m as [|[|n]|]; store_simpl; try congruence.
  cbn [Enabled with_schedule ID Name Command LastRun LastStatus Schedule].
  assert (forall x : CronJob,
            map_get id (map_set id x j) = Some added -> x = added) as Inj
    by (intros x; rewrite map_get_set_same; congruence).
  unfold incomplete in I. apply orb_false_elim in I as [I1 I2].
  apply String.eqb_neq in I1, I2.
  assert (Forall (fun f => f <> EmptyString)
                 (fields (fst (validateSchedule (Schedule job))))) as NE
    by (repeat constructor; apply default_field_nonempty; discriminate).
  destruct w; store_simpl.
  - destruct (Enabled job); store_simpl; intros H; apply Inj in H;
      subst added; cbn; auto.
  - cbn [snd fst]. rewrite (map_delete_set_fresh _ _ _ Hno). congruence.
Qed.

(** *** The statements at sample data *)

(** X12, witness. *)
Lemma store_create_disabled_witness :
  exists s',
    store_create (sample_job false) "a1"%string 100 WriteOk WriteOk WriteOk
                 empty_store
      = Returned (stamped (sample_job false) "a1"%string None EmptyString 100, None)
                 s' /\
    mu s' = MuFree.
Proof.
  destruct (store_create_disabled empty_store (sample_job false) "a1"%string 100
              WriteOk WriteOk eq_refl eq_refl) as (s' & E & M & _).
  exists s'. split; assumption.
Defined.

(** X13, witness. *)
Lemma store_create_enabled_blocks_witness :
  exists s',
    store_create (sample_job true) "a1"%string 100 WriteOk WriteOk WriteOk
                 empty_store = Blocked s' /\
    mu s' = MuWrite.
Proof.
  destruct (store_create_enabled_blocks empty_store (sample_job true) "a1"%string
              100 WriteOk WriteOk eq_refl eq_refl) as (s' & E & M & _).
  exists s'. split; assumption.
Defined.

(** X14, witness. *)
Lemma store_update_delete_block_witness :
  (exists s',
     store_update "a1"%string (sample_job true) WriteOk WriteOk WriteOk sample_store
       = Blocked s' /\ mu s' = MuWrite) /\
  (exists s',
     store_delete "a1"%string WriteOk WriteOk WriteOk sample_store = Blocked s' /\
     mu s' = MuWrite).
Proof.
  destruct (store_update_delete_block sample_store "a1"%string (sample_job true)
              _ WriteOk WriteOk eq_refl eq_refl)
    as [(s1 & E1 & M1 & _) (s2 & E2 & M2 & _)].
  split; [exists s1|exists s2]; split; assumption.
Defined.

(** X15, witness. *)
Lemma store_dead_after_enabled_create_witness :
  exists s',
    run_call CallList
      (perform_all [CallCount]
         (perform (CallCreate (sample_job true) "a1"%string 100 WriteOk WriteOk
                              WriteOk) empty_store))
    = Blocked s'.
Proof.
  exact (store_dead_after_enabled_create empty_store (sample_job true) "a1"%string
           100 WriteOk WriteOk [CallCount] CallList eq_refl eq_refl).
Defined.

(** X17, witness. *)
Lemma store_update_delete_not_found_witness :
  store_update "zz"%string (sample_job true) WriteOk WriteOk WriteOk sample_store
    = Returned (Some job_not_found) sample_store /\
  store_delete "zz"%string WriteOk WriteOk WriteOk sample_store
    = Returned (Some job_not_found) sample_store.
Proof.
  exact (store_update_delete_not_found sample_store "zz"%string (sample_job true)
           WriteOk WriteOk WriteOk eq_refl eq_refl).
Defined.

(** X18, witness. *)
Lemma store_failed_save_rolls_back_witness :
  exists s',
    store_delete "a1"%string (WriteErr "disk full"%string Garbage) WriteOk WriteOk
                 sample_store = Returned (Some "disk full"%string) s' /\
    mu s' = MuFree.
Proof.
  destruct (store_failed_save_rolls_back sample_store "a1"%string "disk full"%string
              (sample_job true) 0 Garbage WriteOk WriteOk eq_refl)
    as [_ H].
  destruct (H _ eq_refl) as [_ (s' & E & M & _)].
  exists s'. split; assumption.
Defined.

(** X19, witness. *)
Lemma store_updateRunStatus_spec_witness :
  exists s',
    store_updateRunStatus "a1"%string "success"%string 200 (WriteErr "disk full"%string Garbage)
                          sample_store = Returned tt s' /\
    mu s' = MuFree.
Proof.
  pose proof (store_updateRunStatus_spec sample_store "a1"%string "success"%string 200
                (WriteErr "disk full"%string Garbage) eq_refl) as H.
  cbv beta iota delta [sample_store jobs map_get String.eqb Ascii.eqb
                       Bool.eqb] in H.
  destruct H as (s' & E & M & _). exists s'. split; assumption.
Defined.

(** X20, witness. *)
Lemma store_jobs_filed_by_ID_witness :
  NoDup (keys (jobs (perform_all
                       [CallRunStatus "a1"%string "success"%string 200 WriteOk]
                       (store_of (initCronStorage None None "bad json"%string
                                                  sample_store))))).
Proof.
  exact (proj1 (store_jobs_filed_by_ID None "bad json"%string sample_store
                  [CallRunStatus "a1"%string "success"%string 200 WriteOk] "a1"%string
                  (sample_job false))).
Defined.

(** X22, witness. *)
Lemma store_load_last_wins_witness :
  exists s',
    store_load None "bad json"%string sample_store = Returned None s' /\
    mu s' = MuFree.
Proof.
  destruct (store_load_last_wins sample_store
              [stamped (sample_job false) "a1"%string None EmptyString 100]
              "bad json"%string eq_refl eq_refl) as (s' & E & M & _).
  exists s'. split; assumption.
Defined.

(** X23, witness. *)
Lemma store_load_null_panics_witness :
  exists s',
    store_load None "bad json"%string
      (set_crons_json (Content [None]) empty_store) = Panicked s' /\
    mu s' = MuFree.
Proof.
  destruct (store_load_null_panics
              (set_crons_json (Content [None]) empty_store) [] []
              "bad json"%string eq_refl eq_refl) as (s' & E & M & _).
  exists s'. split; assumption.
Defined.

(** X25, witness. *)
Lemma syncCrontab_text_witness :
  exists s',
    syncCrontab WriteOk WriteOk sample_store = Returned tt s' /\
    mu s' = MuFree.
Proof.
  destruct (syncCrontab_text sample_store eq_refl) as (s' & E & M & _).
  exists s'. split; assumption.
Defined.

(** X26, witness: the enabled backup job on the empty store. *)
Lemma handleCronCreate_created_only_disabled_witness :
  exists s',
    handleCronCreate (Some (sample_job true)) "a1"%string 100
                     WriteOk WriteOk WriteOk empty_store = Blocked s' /\
    mu s' = MuWrite.
Proof.
  exact (proj1 (proj2 (proj2 (handleCronCreate_created_only_disabled
                                (Some (sample_job true)) "a1"%string 100
                                WriteOk WriteOk WriteOk empty_store)
                             (sample_job true) eq_refl eq_refl)
                      eq_refl eq_refl)
               eq_refl).
Defined.

(** X27, witness: a change to, and the removal of, the job of the sample
    store. *)
Lemma handleCronUpdate_Delete_never_succeed_witness :
  (exists s',
     handleCronUpdate "a1"%string (Some (sample_job true))
                      WriteOk WriteOk WriteOk sample_store = Blocked s' /\
     mu s' = MuWrite) /\
  (exists s',
     handleCronDelete "a1"%string WriteOk WriteOk WriteOk sample_store
       = Blocked s' /\
     mu s' = MuWrite).
Proof.
  destruct (proj2 (proj2 (handleCronUpdate_Delete_never_succeed
                            "a1"%string (Some (sample_job true))
                            WriteOk WriteOk WriteOk sample_store))
                  (stamped (sample_job false) "a1"%string None EmptyString 100))
    as [U D]; [discriminate|reflexivity|reflexivity|reflexivity|].
  split; [exact (U (sample_job true) eq_refl eq_refl)|exact D].
Defined.

(** X28, witness. *)
Lemma handleCronCreate_adds_complete_jobs_witness :
  Name (stamped (sample_job true) "a1"%string None EmptyString 100) <> EmptyString.
Proof.
  exact (proj1 (handleCronCreate_adds_complete_jobs
                  (Some (sample_job true)) "a1"%string 100 WriteOk WriteOk WriteOk
                  empty_store _ eq_refl eq_refl)).
Defined.
